(** * collect_node: the static index generator, [generate_index.js]

    A shallow embedding of the script and of its earlier variant, and the
    properties of the filter, the sort, the renderer and the writer.

    JavaScript strings are sequences of UTF-16 code units; they are modelled
    as lists of [N].  The file system below the working directory is a tree
    of named entries.  Exceptions are modelled with [option]: [None] is an
    uncaught exception, which aborts the run. *)

From Stdlib Require Import NArith List Bool Lia String Ascii.
From Stdlib Require Import Permutation Sorted.
Import ListNotations.

#[local] Set Warnings "-register-all".

Local Open Scope N_scope.

(** ** Strings *)

Module JsString.

Definition jsstring : Type := list N.

(** [lit s] is the string literal [s]; it is used for ASCII text only, where
    a byte of the source file is one code unit. *)
Definition lit (s : string) : jsstring :=
  List.map N_of_ascii (list_ascii_of_string s).

Definition dquote : N := 34.
Definition newline : N := 10.
Definition dot : N := 46.
Definition slash : N := 47.
Definition backslash : N := 92.

Fixpoint eqb (x y : jsstring) : bool :=
  match x, y with
  | [], [] => true
  | a :: x', b :: y' => (a =? b) && eqb x' y'
  | _, _ => false
  end.

(** [String.prototype.startsWith]. *)
Fixpoint startsWith (s prefix : jsstring) : bool :=
  match prefix with
  | [] => true
  | c :: prefix' =>
      match s with
      | [] => false
      | d :: s' => (d =? c) && startsWith s' prefix'
      end
  end.

(** The comparison of the default [Array.prototype.sort]: both elements are
    strings, and [x] comes before [y] when [x < y] as strings, that is at
    the first position where they differ the code unit of [x] is smaller, or
    [x] is a proper prefix of [y]. *)
Fixpoint ltb (x y : jsstring) : bool :=
  match x, y with
  | _, [] => false
  | [], _ :: _ => true
  | a :: x', b :: y' =>
      if a <? b then true else if b <? a then false else ltb x' y'
  end.

Definition leb (x y : jsstring) : bool := negb (ltb y x).

(** Surrogates, and the code points of a string as [String.prototype.codePointAt]
    reads them: a high surrogate followed by a low one is one code point,
    every other code unit stands for itself. *)
Definition is_high_surrogate (c : N) : bool := (55296 <=? c) && (c <=? 56319).
Definition is_low_surrogate (c : N) : bool := (56320 <=? c) && (c <=? 57343).
Definition is_surrogate (c : N) : bool := (55296 <=? c) && (c <=? 57343).

Definition pair_code_point (hi lo : N) : N :=
  65536 + (hi - 55296) * 1024 + (lo - 56320).

Fixpoint code_points (s : jsstring) : list N :=
  match s with
  | [] => []
  | c :: rest =>
      if is_high_surrogate c then
        match rest with
        | d :: rest' =>
            if is_low_surrogate d then pair_code_point c d :: code_points rest'
            else c :: code_points rest
        | [] => [c]
        end
      else c :: code_points rest
  end.

(** Comparison by code points. *)
Definition code_point_ltb (x y : jsstring) : bool :=
  ltb (code_points x) (code_points y).

Definition code_point_leb (x y : jsstring) : bool := negb (code_point_ltb y x).

(** A string is well formed when every surrogate in it is part of a
    pair. *)
Fixpoint well_formed (s : jsstring) : bool :=
  match s with
  | [] => true
  | c :: rest =>
      if is_high_surrogate c then
        match rest with
        | d :: rest' => is_low_surrogate d && well_formed rest'
        | [] => false
        end
      else negb (is_low_surrogate c) && well_formed rest
  end.

(** What is left of a string that was encoded as UTF-8 and decoded again:
    every surrogate that is not part of a pair has become U+FFFD. *)
Fixpoint toWellFormed (s : jsstring) : jsstring :=
  match s with
  | [] => []
  | c :: rest =>
      if is_high_surrogate c then
        match rest with
        | d :: rest' =>
            if is_low_surrogate d then c :: d :: toWellFormed rest'
            else 65533 :: toWellFormed rest
        | [] => [65533]
        end
      else if is_low_surrogate c then 65533 :: toWellFormed rest
      else c :: toWellFormed rest
  end.

Definition ascii (s : jsstring) : bool := forallb (fun c => c <? 128) s.

End JsString.
Import JsString.

(** ** The extension filter *)

Module Filter.

(** Case-insensitive matching of a regular expression without the [u] flag
    compares canonicalised code units.  For an ASCII letter the canonical
    form is the upper-case letter; every other ASCII unit is its own
    canonical form; a unit above 127 never canonicalises to an ASCII unit.
    The pattern below is ASCII, so only whether a unit canonicalises to a
    given ASCII unit matters, and [canonicalize] decides that. *)
Definition canonicalize (c : N) : N :=
  if (97 <=? c) && (c <=? 122) then c - 32 else c.

(** The alternatives of [/\.(txt|md|json|csv|log|ini|xml|yaml|yml)$/i]. *)
Definition alternatives : list jsstring :=
  List.map lit
    ["txt"; "md"; "json"; "csv"; "log"; "ini"; "xml"; "yaml"; "yml"]%string.

(** One alternative followed by the end-of-input assertion, tried against
    the rest of the input. *)
Fixpoint alt_then_end (alt input : jsstring) : bool :=
  match alt, input with
  | [], [] => true
  | p :: alt', c :: input' =>
      (canonicalize c =? canonicalize p) && alt_then_end alt' input'
  | _, _ => false
  end.

(** The pattern tried at one start position. *)
Definition match_here (input : jsstring) : bool :=
  match input with
  | c :: rest =>
      (canonicalize c =? canonicalize dot)
      && existsb (fun alt => alt_then_end alt rest) alternatives
  | [] => false
  end.

(** [RegExp.prototype.test]: the pattern is tried at every start position,
    from the left. *)
Fixpoint test (input : jsstring) : bool :=
  match_here input
  || match input with
     | [] => false
     | _ :: rest => test rest
     end.

(** The words of the specification: the extension of a file name is what
    follows its last dot, and letters are compared without case. *)
Fixpoint extension (name : jsstring) : option jsstring :=
  match name with
  | [] => None
  | c :: rest =>
      match extension rest with
      | Some e => Some e
      | None => if c =? dot then Some rest else None
      end
  end.

Definition to_lower (c : N) : N :=
  if (65 <=? c) && (c <=? 90) then c + 32 else c.

Definition whitelist : list jsstring :=
  List.map lit
    ["txt"; "md"; "json"; "csv"; "log"; "ini"; "xml"; "yaml"; "yml"]%string.

Definition has_listed_extension (name : jsstring) : bool :=
  match extension name with
  | Some e => existsb (JsString.eqb (List.map to_lower e)) whitelist
  | None => false
  end.

(** A hidden entry: its base name starts with a dot. *)
Definition hidden (name : jsstring) : bool := startsWith name (lit ".").

End Filter.
Import Filter.

(** ** [encodeURI] *)

Module Uri.

Definition is_alpha (c : N) : bool :=
  ((65 <=? c) && (c <=? 90)) || ((97 <=? c) && (c <=? 122)).
Definition is_digit (c : N) : bool := (48 <=? c) && (c <=? 57).

(** The reserved characters of a URI, [; / ? : @ & = + $ ,]. *)
Definition uri_reserved : jsstring := lit ";/?:@&=+$,".
(** The marks [- _ . ! ~ * ' ( )]. *)
Definition uri_mark : jsstring := lit "-_.!~*'()".

Definition mem (c : N) (set : jsstring) : bool := existsb (N.eqb c) set.

(** The set that [encodeURI] leaves alone: reserved characters, letters,
    digits, marks and [#]. *)
Definition unescaped (c : N) : bool :=
  mem c uri_reserved || is_alpha c || is_digit c || mem c uri_mark
  || (c =? 35).

(** The UTF-8 octets of a code point: one to four octets, the last of
    which carry six bits each, and the first the bits that are left, three
    of them in the form of four octets. *)
Definition utf8 (v : N) : list N :=
  if v <? 128 then [v]
  else if v <? 2048 then
    [N.lor 192 (N.shiftr v 6); N.lor 128 (N.land v 63)]
  else if v <? 65536 then
    [N.lor 224 (N.shiftr v 12);
     N.lor 128 (N.land (N.shiftr v 6) 63);
     N.lor 128 (N.land v 63)]
  else
    [N.lor 240 (N.land (N.shiftr v 18) 7);
     N.lor 128 (N.land (N.shiftr v 12) 63);
     N.lor 128 (N.land (N.shiftr v 6) 63);
     N.lor 128 (N.land v 63)].

Definition hex_digit (n : N) : N := if n <? 10 then 48 + n else 55 + n.

(** One octet as [%XX], upper-case. *)
Definition percent (octet : N) : jsstring :=
  [37; hex_digit (N.shiftr octet 4); hex_digit (N.land octet 15)].

Definition escape (v : N) : jsstring := flat_map percent (utf8 v).

(** [encodeURI]: a unit of the unescaped set is copied; any other code
    point is written as the escapes of its UTF-8 octets; a surrogate that is
    not part of a pair throws a [URIError]. *)
Fixpoint encodeURI (s : jsstring) : option jsstring :=
  match s with
  | [] => Some []
  | c :: rest =>
      if unescaped c then option_map (cons c) (encodeURI rest)
      else if is_low_surrogate c then None
      else if is_high_surrogate c then
        match rest with
        | d :: rest' =>
            if is_low_surrogate d then
              option_map (app (escape (pair_code_point c d))) (encodeURI rest')
            else None
        | [] => None
        end
      else option_map (app (escape c)) (encodeURI rest)
  end.

End Uri.
Import Uri.

(** ** Paths *)

Module Path.

(** The functions of [path] are those of a POSIX system: the separator is
    the slash, and a backslash is a character like any other.

    [path.join(dir, item)] where [dir] is the path the traversal has reached
    and [item] a name that [readdirSync] returned (not empty, without
    separator, neither [.] nor [..]): joining and normalising gives [item]
    below the directory [.], and [dir/item] below any other. *)
Definition join (dir item : jsstring) : jsstring :=
  if JsString.eqb dir (lit ".") then item else dir ++ slash :: item.

(** [path.relative('.', p)] for such a path [p] below the working
    directory: the path itself. *)
Definition relative_to_cwd (p : jsstring) : jsstring := p.

(** [.replace(/\\/g, '/')]. *)
Definition slashes (p : jsstring) : jsstring :=
  List.map (fun c => if c =? backslash then slash else c) p.

(** [.replace(/^\.\/?/, '')]: a leading dot and the slash after it, if
    any, are removed. *)
Definition strip_dot_slash (p : jsstring) : jsstring :=
  match p with
  | c :: rest =>
      if c =? dot then
        match rest with
        | d :: rest' => if d =? slash then rest' else rest
        | [] => rest
        end
      else p
  | [] => p
  end.

(** The components of a path joined with [/]. *)
Fixpoint join_all (components : list jsstring) : jsstring :=
  match components with
  | [] => []
  | [c] => c
  | c :: rest => c ++ slash :: join_all rest
  end.

(** The relative path of the file reached through [components]. *)
Definition relPath_of (components : list jsstring) : jsstring :=
  slashes (join_all components).

End Path.

(** ** The file system *)

Module Fs.

(** What [statSync] finds under a name: a regular file with its text, as
    [readFileSync(name, 'utf8')] decodes it; a directory with the entries
    [readdirSync] lists, in listing order; or an entry that cannot be
    examined ([statSync] throws, or [readdirSync] does once [walk] has been
    called on it).  The tree is finite.  A link counts as the file or the
    directory it leads to, an entry of its own: that a write through a
    link changes the entry it leads to is not modelled.  Regular files are
    taken to be readable and writable: the permission and device errors of
    [readFileSync] and [writeFileSync] are not modelled either. *)
Inductive node : Type :=
| File (content : jsstring)
| Dir (items : list (jsstring * node))
| Broken.

Definition entries : Type := list (jsstring * node).

Section NodeInduction.

Variable P : node -> Prop.
Hypothesis HFile : forall content, P (File content).
Hypothesis HBroken : P Broken.
Hypothesis HDir :
  forall items, Forall (fun e => P (snd e)) items -> P (Dir items).

(** Induction on a tree, with the property for every entry of a
    directory. *)
Fixpoint node_ind' (d : node) : P d :=
  match d with
  | File content => HFile content
  | Broken => HBroken
  | Dir items =>
      HDir items
        ((fix all (l : entries) : Forall (fun e => P (snd e)) l :=
            match l with
            | [] => Forall_nil _
            | e :: l' => Forall_cons e (node_ind' (snd e)) (all l')
            end) items)
  end.

End NodeInduction.

(** Every regular file of the tree, as the list of names that leads to it
    from the root, in listing order. *)
Fixpoint files_of (d : node) : list (list jsstring) :=
  match d with
  | Dir items =>
      flat_map
        (fun e =>
           match snd e with
           | File _ => [[fst e]]
           | Dir _ => List.map (cons (fst e)) (files_of (snd e))
           | Broken => []
           end) items
  | _ => []
  end.


(** The entry under [name] in a directory listing. *)
Fixpoint lookup (name : jsstring) (items : entries) : option node :=
  match items with
  | [] => None
  | (n, d) :: rest => if JsString.eqb n name then Some d else lookup name rest
  end.

(** [fs.existsSync(name)] in the working directory; an entry that cannot
    be examined does not exist for it. *)
Definition existsSync (cwd : node) (name : jsstring) : bool :=
  match cwd with
  | Dir items =>
      match lookup name items with
      | Some (File _) | Some (Dir _) => true
      | _ => false
      end
  | _ => false
  end.

(** [fs.readFileSync(name, 'utf8')]: throws unless [name] is a file. *)
Definition readFileSync (cwd : node) (name : jsstring) : option jsstring :=
  match cwd with
  | Dir items =>
      match lookup name items with
      | Some (File content) => Some content
      | _ => None
      end
  | _ => None
  end.

(** [fs.writeFileSync(name, data, 'utf8')]: the whole content of the file
    is replaced by the UTF-8 encoding of [data]; a file that does not exist
    is created; writing to a directory throws.  Where [readdirSync] lists a
    created file is for the file system to choose; it is put last here. *)
Fixpoint write_entry (name data : jsstring) (items : entries)
  : option entries :=
  match items with
  | [] => Some [(name, File (toWellFormed data))]
  | (n, d) :: rest =>
      if JsString.eqb n name then
        match d with
        | File _ => Some ((n, File (toWellFormed data)) :: rest)
        | _ => None
        end
      else option_map (cons (n, d)) (write_entry name data rest)
  end.

Definition writeFileSync (cwd : node) (name data : jsstring) : option node :=
  match cwd with
  | Dir items => option_map Dir (write_entry name data items)
  | _ => None
  end.

End Fs.
Import Fs.

(** ** The traversal *)

Module Traversal.

(** [walk(dir, fileList)] of [generate_index.js].  [d] is what the file
    system holds at [dir]; [readdirSync] throws when it is not a directory.
    The array [fileList] is shared by all the calls, so it is threaded
    through them. *)
Fixpoint walk (dir : jsstring) (d : node) (fileList : list jsstring)
  {struct d} : option (list jsstring) :=
  match d with
  | Dir items =>
      (fix loop (items : entries) (fileList : list jsstring) {struct items}
         : option (list jsstring) :=
         match items with
         | [] => Some fileList
         | (item, entry) :: rest =>
             if startsWith item (lit ".") then loop rest fileList
             else
               let fullPath := Path.join dir item in
               let relPath := Path.slashes (Path.relative_to_cwd fullPath) in
               match entry with
               | Broken => None
               | Dir _ =>
                   match walk fullPath entry fileList with
                   | Some fileList' => loop rest fileList'
                   | None => None
                   end
               | File _ =>
                   if test item then loop rest (fileList ++ [relPath])
                   else loop rest fileList
               end
         end) items fileList
  | _ => None
  end.

(** The loop of [walk] over the entries of one directory. *)
Fixpoint walk_items (dir : jsstring) (items : entries)
  (fileList : list jsstring) : option (list jsstring) :=
  match items with
  | [] => Some fileList
  | (item, entry) :: rest =>
      if startsWith item (lit ".") then walk_items dir rest fileList
      else
        let fullPath := Path.join dir item in
        let relPath := Path.slashes (Path.relative_to_cwd fullPath) in
        match entry with
        | Broken => None
        | Dir _ =>
            match walk fullPath entry fileList with
            | Some fileList' => walk_items dir rest fileList'
            | None => None
            end
        | File _ =>
            if test item then walk_items dir rest (fileList ++ [relPath])
            else walk_items dir rest fileList
        end
  end.

(** [walk(dir)] of the earlier variant: no entry is skipped, each call has
    its own array, and the path is the joined path without a leading
    [./]. *)
Fixpoint walk_variant (dir : jsstring) (d : node) {struct d}
  : option (list jsstring) :=
  match d with
  | Dir listing =>
      (fix forEach (listing : entries) (results : list jsstring) {struct listing}
         : option (list jsstring) :=
         match listing with
         | [] => Some results
         | (file, entry) :: rest =>
             let fullPath := Path.join dir file in
             match entry with
             | Broken => None
             | Dir _ =>
                 match walk_variant fullPath entry with
                 | Some sub => forEach rest (results ++ sub)
                 | None => None
                 end
             | File _ =>
                 if test file then
                   forEach rest (results ++ [Path.strip_dot_slash fullPath])
                 else forEach rest results
             end
         end) listing []
  | _ => None
  end.

Fixpoint walk_variant_items (dir : jsstring) (listing : entries)
  (results : list jsstring) : option (list jsstring) :=
  match listing with
  | [] => Some results
  | (file, entry) :: rest =>
      let fullPath := Path.join dir file in
      match entry with
      | Broken => None
      | Dir _ =>
          match walk_variant fullPath entry with
          | Some sub => walk_variant_items dir rest (results ++ sub)
          | None => None
          end
      | File _ =>
          if test file then
            walk_variant_items dir rest
              (results ++ [Path.strip_dot_slash fullPath])
          else walk_variant_items dir rest results
      end
  end.

(** The files the canonical traversal keeps: no name on the way is hidden,
    and the file name passes the pattern. *)
Definition visible (components : list jsstring) : bool :=
  forallb (fun c => negb (hidden c)) components.

Definition kept (components : list jsstring) : bool :=
  visible components && test (last components []).

(** Whether the canonical traversal can examine everything it reaches. *)
Fixpoint readable (d : node) : bool :=
  match d with
  | Dir items =>
      forallb
        (fun e =>
           hidden (fst e)
           || match snd e with
              | File _ => true
              | Dir _ => readable (snd e)
              | Broken => false
              end) items
  | _ => false
  end.

End Traversal.
Import Traversal.

(** ** Sorting *)

Module Sort.

Fixpoint insert (x : jsstring) (l : list jsstring) : list jsstring :=
  match l with
  | [] => [x]
  | y :: l' => if JsString.ltb y x then y :: insert x l' else x :: l
  end.

(** [Array.prototype.sort()] without a comparison function, on an array of
    strings: the result is the arrangement of the elements that is ascending
    for [JsString.ltb], and equal strings keep their order. *)
Definition sort (l : list jsstring) : list jsstring :=
  fold_right insert [] l.

End Sort.
Import Sort.

(** ** The renderer *)

Module Renderer.

Definition line (s : string) : jsstring := lit s ++ [newline].
Definition quoted (s : string) : jsstring := dquote :: lit s ++ [dquote].

(** The title of the page, six ideographs. *)
Definition title_text : jsstring := [25991; 20214; 19979; 36733; 21015; 34920].
(** The folder sign before the heading, one code point above the basic
    plane, so a surrogate pair. *)
Definition folder_sign : jsstring := [55357; 56513].
(** The note of the footer, twelve ideographs. *)
Definition footer_note : jsstring :=
  [25991; 20214; 21015; 34920; 30001; 33258; 21160; 21270; 33050; 26412;
   29983; 25104].
(** The label before the time in the footer of the variant. *)
Definition updated_label : jsstring := [26356; 26032; 26102; 38388].

(** The template literal the document starts with, up to the opening of the
    list. *)
Definition header : jsstring :=
  line "<!DOCTYPE html>"
  ++ lit "<html lang=" ++ quoted "zh" ++ line ">"
  ++ line "<head>"
  ++ lit "  <meta charset=" ++ quoted "UTF-8" ++ line " />"
  ++ lit "  <meta name=" ++ quoted "viewport" ++ lit " content="
  ++ quoted "width=device-width, initial-scale=1.0" ++ line "/>"
  ++ lit "  <title>" ++ title_text ++ line "</title>"
  ++ line "  <style>"
  ++ lit "    body { font-family: -apple-system, BlinkMacSystemFont, "
  ++ line "sans-serif; padding: 2rem; max-width: 800px; margin: 0 auto; }"
  ++ line "    h1 { color: #333; }"
  ++ line "    ul { list-style: none; padding: 0; }"
  ++ line "    li { margin: 0.6rem 0; }"
  ++ line "    a { color: #0066cc; text-decoration: none; font-size: 1.1em; }"
  ++ line "    a:hover { text-decoration: underline; }"
  ++ line "  </style>"
  ++ line "</head>"
  ++ line "<body>"
  ++ lit "  <h1>" ++ folder_sign ++ lit " " ++ title_text ++ line "</h1>"
  ++ line "  <ul>".

(** One list item: the link target is [encoded], the visible text is
    [file] as it is. *)
Definition list_item (encoded file : jsstring) : jsstring :=
  lit "    <li><a href=" ++ dquote :: encoded ++ dquote :: lit ">"
  ++ file ++ lit "</a></li>" ++ [newline].

(** What closes the document; there is no line end after the last tag. *)
Definition closing : jsstring := line "</body>" ++ lit "</html>".

Definition paragraph (text : jsstring) : jsstring :=
  lit "  <p><small>" ++ text ++ line "</small></p>".

Definition footer : jsstring :=
  line "  </ul>" ++ paragraph footer_note ++ closing.

(** The footer of the variant; [now] is what
    [new Date().toLocaleString('zh-CN')] returns. *)
Definition footer_variant (now : jsstring) : jsstring :=
  line "  </ul>" ++ paragraph (updated_label ++ lit ": " ++ now) ++ closing.

(** [files.forEach(file => { ... html += ... })]. *)
Fixpoint forEach_file (files : list jsstring) (html : jsstring)
  : option jsstring :=
  match files with
  | [] => Some html
  | file :: rest =>
      match encodeURI file with
      | Some encoded => forEach_file rest (html ++ list_item encoded file)
      | None => None
      end
  end.

(** The document of [generate_index.js] for the sorted [files]. *)
Definition render (files : list jsstring) : option jsstring :=
  match forEach_file files header with
  | Some html => Some (html ++ footer)
  | None => None
  end.

(** The document of the variant. *)
Definition render_variant (now : jsstring) (files : list jsstring)
  : option jsstring :=
  match forEach_file files header with
  | Some html => Some (html ++ footer_variant now)
  | None => None
  end.

#[global] Arguments header : simpl never.
#[global] Arguments footer : simpl never.
#[global] Arguments footer_variant : simpl never.
#[global] Arguments list_item : simpl never.

End Renderer.
Import Renderer.

(** ** The script *)

Module Script.

(** What a run depends on: the tree below the working directory, and the
    time of day as the variant formats it. *)
Record world : Type := World { cwd : node; now : jsstring }.

(** The lines written to the console: that [index.html] is unchanged and
    the write skipped; that it was updated, with the number of files; the
    number of files alone. *)
Inductive message : Type :=
| Skipped
| Updated (count : nat)
| Count (count : nat).

Inductive effect : Type :=
| Write (path data : jsstring)
| Log (m : message).

Definition outputPath : jsstring := lit "index.html".
Definition rootDir : jsstring := lit ".".

(** [walk('.')], with the fresh array of the default argument. *)
Definition collected (root : node) : option (list jsstring) :=
  walk rootDir root [].

(** [files]: the collected paths, sorted. *)
Definition files_of_run (root : node) : option (list jsstring) :=
  option_map sort (collected root).

(** [html]: the rendered document of a run. *)
Definition rendered (w : world) : option jsstring :=
  match files_of_run (cwd w) with
  | Some files => render files
  | None => None
  end.

(** The guard of the writer: [shouldWrite], and what was logged while it
    was decided. *)
Definition decide_write (root : node) (html : jsstring)
  : option (bool * list effect) :=
  if existsSync root outputPath then
    match readFileSync root outputPath with
    | Some existing =>
        if JsString.eqb existing html then Some (false, [Log Skipped])
        else Some (true, [])
    | None => None
    end
  else Some (true, []).

(** A run of [generate_index.js]: the tree it leaves and the effects it
    performed, in order.  Every exception is thrown before the first effect,
    so an aborted run, [None], has performed none. *)
Definition main (w : world) : option (node * list effect) :=
  match files_of_run (cwd w) with
  | None => None
  | Some files =>
      match render files with
      | None => None
      | Some html =>
          match decide_write (cwd w) html with
          | None => None
          | Some (shouldWrite, logged) =>
              if shouldWrite then
                match writeFileSync (cwd w) outputPath html with
                | Some root' =>
                    Some (root',
                          logged ++ [Write outputPath html;
                                     Log (Updated (List.length files))])
                | None => None
                end
              else Some (cwd w, logged ++ [Log (Count (List.length files))])
          end
      end
  end.

(** The document and a run of the variant. *)
Definition rendered_variant (w : world) : option jsstring :=
  match option_map sort (walk_variant rootDir (cwd w)) with
  | Some files => render_variant (now w) files
  | None => None
  end.

Definition main_variant (w : world) : option (node * list effect) :=
  match option_map sort (walk_variant rootDir (cwd w)) with
  | None => None
  | Some files =>
      match render_variant (now w) files with
      | None => None
      | Some html =>
          match writeFileSync (cwd w) outputPath html with
          | Some root' =>
              Some (root', [Write outputPath html;
                            Log (Updated (List.length files))])
          | None => None
          end
      end
  end.

Definition effects_of (r : option (node * list effect)) : list effect :=
  match r with
  | Some (_, effects) => effects
  | None => []
  end.

Definition is_write (e : effect) : bool :=
  match e with
  | Write _ _ => true
  | Log _ => false
  end.

Definition writes (effects : list effect) : list effect :=
  filter is_write effects.

End Script.
Import Script.

(** ** Notions the properties are stated with *)

Module Notions.

(** A lower-case ASCII letter. *)
Definition lower_letter (c : N) : bool := (97 <=? c) && (c <=? 122).

(** The path [walk] has built when it reaches a file through [components]
    from [dir]. *)
Definition path_from (dir : jsstring) (components : list jsstring) : jsstring :=
  fold_left Path.join components dir.

Definition entry_files (e : jsstring * node) : list (list jsstring) :=
  match snd e with
  | File _ => [[fst e]]
  | Dir _ => List.map (cons (fst e)) (files_of (snd e))
  | Broken => []
  end.

Definition entry_readable (e : jsstring * node) : bool :=
  hidden (fst e)
  || match snd e with
     | File _ => true
     | Dir _ => readable (snd e)
     | Broken => false
     end.

(** The two orders on strings, as relations. *)
Definition unit_le (x y : jsstring) : Prop := JsString.leb x y = true.
Definition code_point_le (x y : jsstring) : Prop := code_point_leb x y = true.

(** A string without surrogates. *)
Definition plain (s : jsstring) : bool :=
  forallb (fun c => negb (is_surrogate c)) s.

(** The list items of the document, one for each path. *)
Fixpoint list_items (files : list jsstring) : option (list jsstring) :=
  match files with
  | [] => Some []
  | file :: rest =>
      match encodeURI file, list_items rest with
      | Some encoded, Some items => Some (list_item encoded file :: items)
      | _, _ => None
      end
  end.

(** The same tree, listed in another order. *)
Inductive same_tree : node -> node -> Prop :=
| same_File content : same_tree (File content) (File content)
| same_Broken : same_tree Broken Broken
| same_Dir items1 items items2 :
    Forall2
      (fun e1 e2 => fst e1 = fst e2 /\ same_tree (snd e1) (snd e2))
      items1 items ->
    Permutation items items2 ->
    same_tree (Dir items1) (Dir items2).




(** The criterion of the filter: the extension is listed and no name on
    the way, the file's own included, is hidden. *)
Definition listed_and_visible (components : list jsstring) : bool :=
  has_listed_extension (last components []) && visible components.

(** The same with the directories above the file only. *)
Definition listed_below_visible (components : list jsstring) : bool :=
  has_listed_extension (last components [])
  && visible (removelast components).


(** No reserved character other than the separator is left in a link
    target. *)
Definition reserved_encoded (href : jsstring) : Prop :=
  forall c, In c href -> c <> slash -> mem c uri_reserved = false.

Definition jsstring_eq_dec : forall x y : jsstring, {x = y} + {x <> y} :=
  list_eq_dec N.eq_dec.

End Notions.
Import Notions.

(** ** Trees used as examples *)

Module Scenarios.

Definition file (name : string) : jsstring * node := (lit name, File []).
Definition dir (name : string) (items : entries) : jsstring * node :=
  (lit name, Dir items).

(** The tree of the end-to-end scenario. *)
Definition scenario : node :=
  Dir [file "README.md"; file "data.json";
       dir ".hidden" [file "secret.txt"];
       dir "sub" [file "log.log"]].

(** The same tree, listed in another order. *)
Definition scenario_reordered : node :=
  Dir [dir "sub" [file "log.log"]; file "README.md";
       dir ".hidden" [file "secret.txt"]; file "data.json"].



(** One hidden file with a listed extension. *)
Definition dotfile_tree : node := Dir [file ".notes.txt"].


(** Two files: the name of the first starts with U+FF21, a full-width
    letter; the name of the second with U+1F600, written as the surrogate
    pair D83D DE00. *)
Definition astral_tree : node :=
  Dir [(65313 :: lit ".txt", File []); (55357 :: 56832 :: lit ".txt", File [])].

(** A file [b.txt] in the directory [a], and a file whose name is [a], a
    backslash and [b.txt]. *)
Definition backslash_tree : node :=
  Dir [dir "a" [file "b.txt"]; (lit "a" ++ backslash :: lit "b.txt", File [])].

(** The document of the scenario, and the scenario with that document as
    its [index.html]. *)
Definition scenario_document : jsstring :=
  match rendered (World scenario []) with
  | Some html => html
  | None => []
  end.

Definition scenario_indexed : node :=
  match scenario with
  | Dir items => Dir (items ++ [(outputPath, File scenario_document)])
  | other => other
  end.

(** The scenario with an [index.html] of another content. *)
Definition scenario_stale : node :=
  match scenario with
  | Dir items => Dir ((outputPath, File (lit "<html></html>")) :: items)
  | other => other
  end.

End Scenarios.
Import Scenarios.

(** ** Notions for the rest of the script *)

Module Coverage.

(** Whether the traversal of the variant can examine everything: it
    examines every entry, hidden or not. *)
Fixpoint readable_variant (d : node) : bool :=
  match d with
  | Dir items =>
      forallb
        (fun e =>
           match snd e with
           | File _ => true
           | Dir _ => readable_variant (snd e)
           | Broken => false
           end) items
  | _ => false
  end.

Definition entry_readable_variant (e : jsstring * node) : bool :=
  match snd e with
  | File _ => true
  | Dir _ => readable_variant (snd e)
  | Broken => false
  end.

(** The files the variant keeps: the file name passes the pattern. *)
Definition passes (components : list jsstring) : bool :=
  test (last components []).

(** Whether [index.html] in the working directory is a directory. *)
Definition output_is_directory (root : node) : bool :=
  match root with
  | Dir items =>
      match lookup outputPath items with
      | Some (Dir _) => true
      | _ => false
      end
  | _ => false
  end.

(** Names that are pairwise different. *)
Fixpoint distinct (names : list jsstring) : bool :=
  match names with
  | [] => true
  | n :: rest => negb (existsb (JsString.eqb n) rest) && distinct rest
  end.

(** A name without a slash and without a backslash. *)
Definition single_component (name : jsstring) : bool :=
  negb (mem slash name) && negb (mem backslash name).

(** A tree as a file system holds it when no name has a backslash: the
    names of a directory are pairwise different and none holds a
    separator. *)
Fixpoint proper (d : node) : bool :=
  match d with
  | Dir items =>
      distinct (List.map fst items)
      && forallb (fun e => single_component (fst e) && proper (snd e)) items
  | _ => true
  end.

(** A character that [encodeURI] may write: one of the unescaped set, or
    the percent sign of an escape. *)
Definition uri_safe (c : N) : bool := unescaped c || (c =? 37).

(** The scenario with a dangling link: hidden, and in plain sight. *)
Definition scenario_hidden_broken : node :=
  match scenario with
  | Dir items => Dir ((lit ".cache", Broken) :: items)
  | other => other
  end.

Definition scenario_broken : node :=
  match scenario with
  | Dir items => Dir (items ++ [(lit "dangling", Broken)])
  | other => other
  end.

(** The scenario where [index.html] is a directory. *)
Definition scenario_output_dir : node :=
  match scenario with
  | Dir items => Dir (items ++ [(outputPath, Dir [file "old.txt"])])
  | other => other
  end.

(** A tree with a file whose name has a surrogate without its pair. *)
Definition lone_surrogate_tree : node :=
  Dir [file "a.txt"; (55357 :: lit ".txt", File [])].

(** The scenario after the first run. *)
Definition scenario_stale_written : node :=
  match scenario with
  | Dir items => Dir (items ++ [(outputPath, File scenario_document)])
  | other => other
  end.



(** The number of places of a text where a pattern starts. *)
Fixpoint occurrences (pat s : jsstring) : nat :=
  match s with
  | [] => 0
  | _ :: rest =>
      ((if startsWith s pat then 1 else 0) + occurrences pat rest)%nat
  end.

(** The character [<], with which every tag starts. *)
Definition less_than : N := 60.

(** A file name that holds the start of an anchor of its own. *)
Definition injected_name : jsstring :=
  lit "a<a href=" ++ dquote :: lit "x" ++ dquote :: lit ">b.txt".

Definition injected_tree : node := Dir [(injected_name, File [])].

End Coverage.
Import Coverage.

(** * Properties *)

(** ** Strings and their order *)

Section StringFacts.

Lemma eqb_eq (x y : jsstring) : JsString.eqb x y = true <-> x = y.
Proof.
  revert y; induction x as [|a x IH]; intros [|b y]; simpl;
    try (split; [discriminate | congruence]); try tauto.
  rewrite andb_true_iff, N.eqb_eq, IH.
  split; [intros [-> ->]; reflexivity | intros E; injection E; auto].
Qed.

Lemma eqb_refl (x : jsstring) : JsString.eqb x x = true.
Proof. apply eqb_eq; reflexivity. Qed.

Lemma ltb_irrefl (x : jsstring) : JsString.ltb x x = false.
Proof.
  induction x as [|a x IH]; simpl; [reflexivity|].
  rewrite N.ltb_irrefl; assumption.
Qed.

Lemma ltb_trans (x y z : jsstring) :
  JsString.ltb x y = true -> JsString.ltb y z = true -> JsString.ltb x z = true.
Proof.
  revert y z; induction x as [|a x IH]; intros [|b y] [|c z]; simpl;
    try discriminate; try reflexivity.
  destruct (N.ltb_spec a b), (N.ltb_spec b a), (N.ltb_spec b c),
    (N.ltb_spec c b), (N.ltb_spec a c), (N.ltb_spec c a);
    try discriminate; try reflexivity; try lia; intros; eauto.
Qed.

(** Two strings neither of which is smaller are the same string. *)
Lemma ltb_antisym (x y : jsstring) :
  JsString.ltb x y = false -> JsString.ltb y x = false -> x = y.
Proof.
  revert y; induction x as [|a x IH]; intros [|b y]; simpl;
    try discriminate; try reflexivity.
  destruct (N.ltb_spec a b), (N.ltb_spec b a); try discriminate; try lia.
  intros; f_equal; [lia | auto].
Qed.

Lemma ltb_asym (x y : jsstring) :
  JsString.ltb x y = true -> JsString.ltb y x = false.
Proof.
  intros H; destruct (JsString.ltb y x) eqn:E; [|reflexivity].
  pose proof (ltb_trans _ _ _ H E) as K; rewrite ltb_irrefl in K; discriminate.
Qed.

Lemma leb_trans (x y z : jsstring) :
  JsString.leb x y = true -> JsString.leb y z = true -> JsString.leb x z = true.
Proof.
  unfold JsString.leb; rewrite !negb_true_iff; intros H1 H2.
  destruct (JsString.ltb z x) eqn:E; [|reflexivity].
  destruct (JsString.ltb y z) eqn:F.
  - rewrite (ltb_trans _ _ _ F E) in H1; discriminate.
  - rewrite (ltb_antisym _ _ F H2) in H1; congruence.
Qed.

(** Without surrogates the code points are the code units. *)
Lemma code_points_plain (s : jsstring) :
  forallb (fun c => negb (is_surrogate c)) s = true -> code_points s = s.
Proof.
  induction s as [|c s IH]; simpl; [reflexivity|].
  rewrite andb_true_iff, negb_true_iff; intros [Hc Hs].
  assert (is_high_surrogate c = false) as ->.
  { unfold is_surrogate, is_high_surrogate in *.
    destruct (N.leb_spec 55296 c), (N.leb_spec c 57343), (N.leb_spec c 56319);
      simpl in *; try reflexivity; try discriminate; lia. }
  rewrite IH by assumption; reflexivity.
Qed.

End StringFacts.

(** ** The pattern and the extension *)

Section FilterFacts.

Lemma canonicalize_lower (c p : N) :
  lower_letter p = true ->
  (canonicalize c =? canonicalize p) = (to_lower c =? p).
Proof.
  unfold lower_letter, canonicalize, to_lower.
  rewrite andb_true_iff, !N.leb_le; intros [Hp1 Hp2].
  destruct (N.leb_spec 97 p), (N.leb_spec p 122); try lia; simpl.
  destruct (N.leb_spec 97 c), (N.leb_spec c 122), (N.leb_spec 65 c),
    (N.leb_spec c 90); simpl;
    destruct (N.eqb_spec (c - 32) (p - 32)), (N.eqb_spec c (p - 32)),
      (N.eqb_spec c p), (N.eqb_spec (c + 32) p); try reflexivity; lia.
Qed.

Lemma canonicalize_dot (c : N) : (canonicalize c =? canonicalize dot) = (c =? dot).
Proof.
  unfold canonicalize, dot; simpl.
  destruct (N.leb_spec 97 c), (N.leb_spec c 122); simpl;
    destruct (N.eqb_spec (c - 32) 46), (N.eqb_spec c 46); try reflexivity; lia.
Qed.

Lemma alt_then_end_lower (alt input : jsstring) :
  forallb lower_letter alt = true ->
  alt_then_end alt input = JsString.eqb (List.map to_lower input) alt.
Proof.
  revert input; induction alt as [|p alt IH]; intros [|c input]; simpl;
    try reflexivity.
  rewrite andb_true_iff; intros [Hp Halt].
  rewrite canonicalize_lower, IH by assumption; reflexivity.
Qed.

Lemma alternatives_lower :
  forallb (forallb lower_letter) alternatives = true.
Proof. reflexivity. Qed.

Lemma match_here_spec (c : N) (rest : jsstring) :
  match_here (c :: rest)
  = (c =? dot) && existsb (JsString.eqb (List.map to_lower rest)) whitelist.
Proof.
  unfold match_here; rewrite canonicalize_dot; f_equal.
  change whitelist with alternatives.
  pose proof alternatives_lower as H; rewrite forallb_forall in H.
  induction alternatives as [|alt alts IH]; simpl; [reflexivity|].
  rewrite alt_then_end_lower by (apply H; left; reflexivity).
  f_equal; apply IH; intros x Hx; apply H; right; assumption.
Qed.

(** A name that equals a word without a dot, up to case, has no dot. *)
Lemma extension_none_of_word (rest word : jsstring) :
  JsString.eqb (List.map to_lower rest) word = true ->
  forallb lower_letter word = true ->
  extension rest = None.
Proof.
  revert word; induction rest as [|c rest IH]; intros [|p word]; simpl;
    try discriminate; try reflexivity.
  rewrite !andb_true_iff, N.eqb_eq; intros [Hc Hrest] [Hp Hword].
  rewrite (IH _ Hrest Hword).
  destruct (N.eqb_spec c dot) as [->|]; [|reflexivity].
  subst p; discriminate.
Qed.

(** The pattern of the source accepts the names whose extension is
    listed. *)
Lemma test_extension (name : jsstring) : test name = has_listed_extension name.
Proof.
  induction name as [|c rest IH]; [reflexivity|].
  change (test (c :: rest)) with (match_here (c :: rest) || test rest).
  rewrite match_here_spec, IH.
  unfold has_listed_extension.
  change (extension (c :: rest))
    with (match extension rest with
          | Some e => Some e
          | None => if c =? dot then Some rest else None
          end).
  destruct (extension rest) as [e|] eqn:E.
  - destruct ((c =? dot)
              && existsb (JsString.eqb (List.map to_lower rest)) whitelist)
      eqn:M; [|reflexivity].
    exfalso.
    apply andb_true_iff in M; destruct M as [_ M].
    apply existsb_exists in M; destruct M as (word & Hin & Hw).
    pose proof alternatives_lower as H; rewrite forallb_forall in H.
    rewrite (extension_none_of_word _ _ Hw (H _ Hin)) in E; discriminate.
  - rewrite orb_false_r.
    destruct (c =? dot); reflexivity.
Qed.

Lemma test_app_suffix (prefix name : jsstring) :
  test name = true -> test (prefix ++ name) = true.
Proof.
  intros H; induction prefix as [|c prefix IH]; [assumption|].
  change (test ((c :: prefix) ++ name))
    with (match_here (c :: prefix ++ name) || test (prefix ++ name)).
  rewrite IH; apply orb_true_r.
Qed.

End FilterFacts.

(** ** The traversal and the files it keeps *)

Section TraversalFacts.

Lemma files_of_Dir (items : entries) :
  files_of (Dir items) = flat_map entry_files items.
Proof. reflexivity. Qed.

Lemma readable_Dir (items : entries) :
  readable (Dir items) = forallb entry_readable items.
Proof. reflexivity. Qed.

Lemma walk_Dir (dir : jsstring) (items : entries) (fileList : list jsstring) :
  walk dir (Dir items) fileList = walk_items dir items fileList.
Proof.
  simpl walk.
  revert fileList; induction items as [|[item entry] rest IH]; intros fileList;
    [reflexivity|].
  simpl walk_items.
  destruct (startsWith item (lit ".")); [apply IH|].
  destruct entry as [content|sub|]; [| |reflexivity].
  - destruct (test item); apply IH.
  - destruct (walk (Path.join dir item) (Dir sub) fileList); [apply IH|reflexivity].
Qed.

Lemma files_of_nonempty (d : node) (cs : list jsstring) :
  In cs (files_of d) -> cs <> [].
Proof.
  destruct d as [content|items|]; simpl; try tauto.
  rewrite in_flat_map; intros ([item entry] & _ & H).
  destruct entry; simpl in H.
  - destruct H as [<-|[]]; discriminate.
  - apply in_map_iff in H; destruct H as (x & <- & _); discriminate.
  - destruct H.
Qed.

Lemma kept_cons (item : jsstring) (cs : list jsstring) :
  cs <> [] -> kept (item :: cs) = negb (hidden item) && kept cs.
Proof.
  intros H; unfold kept; simpl visible.
  replace (last (item :: cs) []) with (last cs (@nil N)).
  - rewrite andb_assoc; reflexivity.
  - destruct cs; [contradiction | reflexivity].
Qed.

Lemma filter_kept_cons (item : jsstring) (l : list (list jsstring)) :
  (forall cs, In cs l -> cs <> []) ->
  filter kept (List.map (cons item) l)
  = if hidden item then [] else List.map (cons item) (filter kept l).
Proof.
  induction l as [|cs l IH]; intros H; simpl.
  - destruct (hidden item); reflexivity.
  - rewrite kept_cons by (apply H; left; reflexivity).
    rewrite IH by (intros; apply H; right; assumption).
    destruct (hidden item); simpl; [reflexivity|].
    destruct (kept cs); reflexivity.
Qed.

Lemma filter_kept_entry_hidden (e : jsstring * node) :
  hidden (fst e) = true -> filter kept (entry_files e) = [].
Proof.
  destruct e as [item entry]; unfold entry_files; cbn [fst snd]; intros H.
  destruct entry as [content|sub|].
  - unfold kept; simpl; rewrite H; reflexivity.
  - rewrite filter_kept_cons by apply files_of_nonempty.
    rewrite H; reflexivity.
  - reflexivity.
Qed.

(** What [walk] returns, for every start directory and every array it is
    given: it aborts when it reaches an entry it cannot examine, and
    otherwise it has appended the paths of the kept files, in listing
    order. *)
Lemma walk_spec (d : node) :
  forall dir fileList,
    walk dir d fileList
    = if readable d then
        Some (fileList
              ++ List.map (fun cs => Path.slashes (path_from dir cs))
                   (filter kept (files_of d)))
      else None.
Proof.
  induction d as [content| |items IH] using node_ind'; try reflexivity.
  intros dir fileList.
  rewrite walk_Dir, files_of_Dir, readable_Dir.
  revert fileList; induction IH as [|[item entry] rest Hentry _ IHrest];
    intros fileList.
  - simpl; rewrite app_nil_r; reflexivity.
  - cbn [flat_map forallb walk_items].
    rewrite filter_app, map_app.
    change (startsWith item (lit ".")) with (hidden item).
    destruct (hidden item) eqn:Hh.
    + rewrite (filter_kept_entry_hidden (item, entry)) by assumption.
      unfold entry_readable at 1; cbn [fst snd]; rewrite Hh.
      apply IHrest.
    + cbn [snd] in Hentry.
      unfold entry_readable at 1, entry_files at 1; cbn [fst snd].
      rewrite Hh; cbn [orb].
      destruct entry as [content|sub|].
      * cbn [filter andb]. unfold kept at 1; cbn [visible forallb last].
        rewrite Hh; cbn [negb andb].
        destruct (test item); rewrite IHrest;
          destruct (forallb entry_readable rest); try reflexivity.
        rewrite <- app_assoc; reflexivity.
      * rewrite Hentry.
        destruct (readable (Dir sub)); [|reflexivity].
        rewrite IHrest; cbn [andb].
        destruct (forallb entry_readable rest); [|reflexivity].
        rewrite filter_kept_cons by apply files_of_nonempty.
        rewrite Hh, map_map, <- app_assoc; reflexivity.
      * reflexivity.
Qed.

Lemma join_all_cons_join (a b : jsstring) (cs : list jsstring) :
  Path.join_all ((a ++ slash :: b) :: cs)
  = a ++ slash :: Path.join_all (b :: cs).
Proof.
  destruct cs as [|c cs]; [reflexivity|].
  change (Path.join_all ((a ++ slash :: b) :: c :: cs))
    with ((a ++ slash :: b) ++ slash :: Path.join_all (c :: cs)).
  change (Path.join_all (b :: c :: cs))
    with (b ++ slash :: Path.join_all (c :: cs)).
  rewrite <- app_assoc; reflexivity.
Qed.

Lemma join_not_cwd (dir item : jsstring) :
  JsString.eqb (dir ++ slash :: item) (lit ".") = false.
Proof.
  destruct dir as [|a [|b dir]]; simpl; try reflexivity;
    apply andb_false_r.
Qed.

Lemma path_from_join_all (cs : list jsstring) :
  forall c, JsString.eqb c (lit ".") = false ->
            path_from c cs = Path.join_all (c :: cs).
Proof.
  induction cs as [|c2 cs IH]; intros c Hc; [reflexivity|].
  unfold path_from; simpl fold_left.
  unfold Path.join at 2; rewrite Hc.
  change (fold_left Path.join cs (c ++ slash :: c2))
    with (path_from (c ++ slash :: c2) cs).
  rewrite IH by apply join_not_cwd.
  apply join_all_cons_join.
Qed.

Lemma visible_not_cwd (c : jsstring) :
  hidden c = false -> JsString.eqb c (lit ".") = false.
Proof.
  destruct c as [|a [|b c]]; simpl; intros H; try reflexivity.
  - exact H.
  - apply andb_false_r.
Qed.

Lemma path_from_root (cs : list jsstring) :
  visible cs = true -> cs <> [] -> path_from rootDir cs = Path.join_all cs.
Proof.
  destruct cs as [|c cs]; [congruence|].
  simpl; rewrite andb_true_iff, negb_true_iff; intros [Hc _] _.
  unfold path_from; simpl fold_left.
  apply (path_from_join_all cs), visible_not_cwd, Hc.
Qed.

(** The collected list of a run. *)
Lemma collected_spec (root : node) :
  collected root
  = if readable root then
      Some (List.map Path.relPath_of (filter kept (files_of root)))
    else None.
Proof.
  unfold collected; rewrite walk_spec.
  destruct (readable root); [|reflexivity].
  simpl; f_equal.
  apply map_ext_in; intros cs Hcs.
  apply filter_In in Hcs; destruct Hcs as [Hin Hk].
  unfold Path.relPath_of; f_equal.
  apply path_from_root.
  - unfold kept in Hk; apply andb_true_iff in Hk; tauto.
  - exact (files_of_nonempty _ _ Hin).
Qed.

End TraversalFacts.

(** ** Sorting *)

Section SortFacts.

Lemma unit_le_trans : Relations_1.Transitive unit_le.
Proof. intros x y z; apply leb_trans. Qed.

Lemma insert_perm (x : jsstring) (l : list jsstring) :
  Permutation (x :: l) (insert x l).
Proof.
  induction l as [|y l IH]; simpl; [reflexivity|].
  destruct (JsString.ltb y x); [|reflexivity].
  rewrite perm_swap; constructor; assumption.
Qed.

Lemma sort_perm (l : list jsstring) : Permutation l (sort l).
Proof.
  induction l as [|x l IH]; simpl; [constructor|].
  rewrite <- insert_perm; constructor; assumption.
Qed.

Lemma insert_HdRel (a x : jsstring) (l : list jsstring) :
  unit_le a x -> HdRel unit_le a l -> HdRel unit_le a (insert x l).
Proof.
  intros Hax Hal; destruct l as [|y l]; simpl.
  - constructor; assumption.
  - destruct (JsString.ltb y x); constructor;
      [apply HdRel_inv in Hal; assumption | assumption].
Qed.

Lemma insert_sorted (x : jsstring) (l : list jsstring) :
  Sorted unit_le l -> Sorted unit_le (insert x l).
Proof.
  induction l as [|y l IH]; simpl; intros H.
  - repeat constructor.
  - apply Sorted_inv in H; destruct H as [Hl Hy].
    destruct (JsString.ltb y x) eqn:E.
    + constructor; [apply IH; assumption|].
      apply insert_HdRel; [|assumption].
      unfold unit_le, JsString.leb; rewrite (ltb_asym _ _ E); reflexivity.
    + constructor; [constructor; assumption|].
      constructor; unfold unit_le, JsString.leb; rewrite E; reflexivity.
Qed.

Lemma sort_sorted (l : list jsstring) : Sorted unit_le (sort l).
Proof.
  induction l as [|x l IH]; simpl; [constructor | apply insert_sorted, IH].
Qed.

(** An ascending arrangement is unique: whatever algorithm the engine uses
    to sort, the result is [sort l]. *)
Lemma ascending_unique (l1 l2 : list jsstring) :
  Permutation l1 l2 ->
  StronglySorted unit_le l1 -> StronglySorted unit_le l2 -> l1 = l2.
Proof.
  revert l2; induction l1 as [|x l1 IH]; intros l2 Hp H1 H2.
  - apply Permutation_nil in Hp; congruence.
  - destruct l2 as [|y l2];
      [apply Permutation_sym, Permutation_nil in Hp; discriminate|].
    apply StronglySorted_inv in H1; destruct H1 as [H1 Hx].
    apply StronglySorted_inv in H2; destruct H2 as [H2 Hy].
    rewrite Forall_forall in Hx, Hy.
    assert (x = y) as ->.
    { assert (In x (y :: l2)) as Hin1
        by (apply (Permutation_in _ Hp); left; reflexivity).
      assert (In y (x :: l1)) as Hin2
        by (apply (Permutation_in _ (Permutation_sym Hp)); left; reflexivity).
      destruct Hin1 as [->|Hin1]; [reflexivity|].
      destruct Hin2 as [->|Hin2]; [reflexivity|].
      specialize (Hx _ Hin2); specialize (Hy _ Hin1).
      unfold unit_le, JsString.leb in Hx, Hy.
      rewrite negb_true_iff in Hx, Hy.
      apply ltb_antisym; assumption. }
    f_equal; apply IH; [exact (Permutation_cons_inv Hp)| |]; assumption.
Qed.

Lemma sort_strongly_sorted (l : list jsstring) :
  StronglySorted unit_le (sort l).
Proof. apply Sorted_StronglySorted; [exact unit_le_trans | apply sort_sorted]. Qed.

Lemma sort_of_perm (l1 l2 : list jsstring) :
  Permutation l1 l2 -> sort l1 = sort l2.
Proof.
  intros Hp; apply ascending_unique; try apply sort_strongly_sorted.
  rewrite <- (sort_perm l1), <- (sort_perm l2); assumption.
Qed.

Lemma sort_length (l : list jsstring) : List.length (sort l) = List.length l.
Proof. symmetry; apply Permutation_length, sort_perm. Qed.

Lemma code_point_leb_plain (x y : jsstring) :
  plain x = true -> plain y = true -> code_point_leb x y = JsString.leb x y.
Proof.
  intros Hx Hy; unfold code_point_leb, code_point_ltb, JsString.leb.
  rewrite !code_points_plain by assumption; reflexivity.
Qed.

Lemma sorted_plain (l : list jsstring) :
  forallb plain l = true -> Sorted unit_le l -> Sorted code_point_le l.
Proof.
  induction l as [|x l IH]; intros Hp Hs; [constructor|].
  simpl in Hp; apply andb_true_iff in Hp; destruct Hp as [Hx Hl].
  apply Sorted_inv in Hs; destruct Hs as [Hs Hd].
  constructor; [apply IH; assumption|].
  destruct l as [|y l]; constructor.
  apply HdRel_inv in Hd.
  simpl in Hl; apply andb_true_iff in Hl; destruct Hl as [Hy _].
  unfold code_point_le; rewrite code_point_leb_plain; assumption.
Qed.

Lemma forallb_perm {A : Type} (f : A -> bool) (l1 l2 : list A) :
  Permutation l1 l2 -> forallb f l1 = forallb f l2.
Proof.
  induction 1; simpl; try congruence.
  destruct (f x), (f y); reflexivity.
Qed.

End SortFacts.

(** ** The renderer *)

Section RendererFacts.

Lemma forEach_file_spec (files : list jsstring) :
  forall html,
    forEach_file files html
    = option_map (fun items => html ++ List.concat items) (list_items files).
Proof.
  induction files as [|file rest IH]; intros html; simpl.
  - rewrite app_nil_r; reflexivity.
  - destruct (encodeURI file) as [encoded|]; [|reflexivity].
    rewrite IH; destruct (list_items rest); simpl; [|reflexivity].
    rewrite <- app_assoc; reflexivity.
Qed.

Lemma render_spec (files : list jsstring) :
  render files
  = option_map (fun items => header ++ List.concat items ++ footer)
      (list_items files).
Proof.
  unfold render; rewrite forEach_file_spec.
  destruct (list_items files); cbn [option_map]; [|reflexivity].
  rewrite <- app_assoc; reflexivity.
Qed.

Lemma render_variant_spec (now : jsstring) (files : list jsstring) :
  render_variant now files
  = option_map (fun items => header ++ List.concat items ++ footer_variant now)
      (list_items files).
Proof.
  unfold render_variant; rewrite forEach_file_spec.
  destruct (list_items files); cbn [option_map]; [|reflexivity].
  rewrite <- app_assoc; reflexivity.
Qed.

Lemma list_items_Forall2 (files : list jsstring) :
  forall items,
    list_items files = Some items ->
    Forall2
      (fun file item =>
         exists encoded,
           encodeURI file = Some encoded /\ item = list_item encoded file)
      files items.
Proof.
  induction files as [|file rest IH]; simpl; intros items H.
  - injection H as <-; constructor.
  - destruct (encodeURI file) as [encoded|] eqn:E; [|discriminate].
    destruct (list_items rest) as [items'|]; [|discriminate].
    injection H as <-; constructor; eauto.
Qed.

Lemma list_items_length (files : list jsstring) :
  forall items,
    list_items files = Some items -> List.length items = List.length files.
Proof.
  intros items H; apply list_items_Forall2 in H.
  symmetry; exact (Forall2_length H).
Qed.

(** *** [encodeURI] never writes a double quote *)

Lemma hex_digit_ge (n : N) : 48 <= hex_digit n.
Proof. unfold hex_digit; destruct (N.ltb_spec n 10); lia. Qed.

Lemma percent_no_dquote (octet : N) : ~ In dquote (percent octet).
Proof.
  unfold percent, dquote; cbn [In].
  pose proof (hex_digit_ge (N.shiftr octet 4)).
  pose proof (hex_digit_ge (N.land octet 15)).
  intros [H1|[H1|[H1|[]]]]; lia.
Qed.

Lemma escape_no_dquote (v : N) : ~ In dquote (escape v).
Proof.
  unfold escape; rewrite in_flat_map.
  intros (octet & _ & H); exact (percent_no_dquote _ H).
Qed.

Lemma encodeURI_ind (P : jsstring -> jsstring -> Prop) :
  P [] [] ->
  (forall c rest out,
      unescaped c = true -> encodeURI rest = Some out -> P rest out ->
      P (c :: rest) (c :: out)) ->
  (forall c d rest out,
      unescaped c = false -> is_low_surrogate c = false ->
      is_high_surrogate c = true -> is_low_surrogate d = true ->
      encodeURI rest = Some out -> P rest out ->
      P (c :: d :: rest) (escape (pair_code_point c d) ++ out)) ->
  (forall c rest out,
      unescaped c = false -> is_surrogate c = false ->
      encodeURI rest = Some out -> P rest out ->
      P (c :: rest) (escape c ++ out)) ->
  forall s out, encodeURI s = Some out -> P s out.
Proof.
  intros Hnil Hcopy Hpair Hone s.
  assert (forall n s, (List.length s <= n)%nat ->
                      forall out, encodeURI s = Some out -> P s out) as K.
  { clear s; induction n as [|n IH]; intros s Hn out H.
    - destruct s; [|simpl in Hn; lia].
      injection H as <-; assumption.
    - destruct s as [|c rest]; [injection H as <-; assumption|].
      simpl in Hn; simpl in H.
      destruct (unescaped c) eqn:Hu.
      + destruct (encodeURI rest) as [o|] eqn:E; [|discriminate].
        injection H as <-; apply Hcopy; auto; apply IH; auto; lia.
      + destruct (is_low_surrogate c) eqn:Hl; [discriminate|].
        destruct (is_high_surrogate c) eqn:Hh.
        * destruct rest as [|d rest']; [discriminate|].
          destruct (is_low_surrogate d) eqn:Hd; [|discriminate].
          destruct (encodeURI rest') as [o|] eqn:E; [|discriminate].
          injection H as <-; apply Hpair; auto.
          apply IH; auto; simpl in Hn; lia.
        * destruct (encodeURI rest) as [o|] eqn:E; [|discriminate].
          injection H as <-; apply Hone; auto.
          -- unfold is_surrogate, is_low_surrogate, is_high_surrogate in *.
             destruct (N.leb_spec 55296 c), (N.leb_spec c 57343),
               (N.leb_spec c 56319), (N.leb_spec 56320 c);
               simpl in *; try reflexivity; try discriminate; lia.
          -- apply IH; auto; lia. }
  intros out; apply (K (List.length s)); lia.
Qed.

Lemma encodeURI_no_dquote (s out : jsstring) :
  encodeURI s = Some out -> ~ In dquote out.
Proof.
  revert s out; apply encodeURI_ind.
  - intros [].
  - intros c rest out Hu _ IH [->|H]; [discriminate | auto].
  - intros c d rest out _ _ _ _ _ IH H.
    apply in_app_or in H; destruct H as [H|H];
      [exact (escape_no_dquote _ H) | auto].
  - intros c rest out _ _ _ IH H.
    apply in_app_or in H; destruct H as [H|H];
      [exact (escape_no_dquote _ H) | auto].
Qed.

(** Two texts cut at their first double quote. *)
Lemma split_at_dquote (a b x y : jsstring) :
  ~ In dquote a -> ~ In dquote b ->
  a ++ dquote :: x = b ++ dquote :: y -> a = b /\ x = y.
Proof.
  revert b; induction a as [|c a IH]; intros [|d b] Ha Hb E; simpl in *.
  - injection E as ->; auto.
  - injection E as E _; subst d; exfalso; apply Hb; left; reflexivity.
  - injection E as E _; subst c; exfalso; apply Ha; left; reflexivity.
  - injection E as -> E.
    destruct (IH b) as [-> ->]; auto.
Qed.

(** Different paths have different list items. *)
Lemma list_item_inj (e1 e2 f1 f2 : jsstring) :
  encodeURI f1 = Some e1 -> encodeURI f2 = Some e2 ->
  list_item e1 f1 = list_item e2 f2 -> f1 = f2.
Proof.
  intros H1 H2 E; unfold list_item in E.
  apply app_inv_head in E.
  injection E as E.
  apply split_at_dquote in E;
    [|eapply encodeURI_no_dquote; eassumption
     |eapply encodeURI_no_dquote; eassumption].
  destruct E as [_ E].
  injection E as E.
  apply app_inv_tail in E; assumption.
Qed.

End RendererFacts.

(** ** Well-formed text *)

Section EncodingFacts.

Lemma not_surrogate_below_128 (c : N) :
  c < 128 -> is_high_surrogate c = false /\ is_low_surrogate c = false.
Proof.
  unfold is_high_surrogate, is_low_surrogate; intros H.
  destruct (N.leb_spec 55296 c), (N.leb_spec 56320 c); simpl; try lia; auto.
Qed.

Lemma well_formed_ascii (s : jsstring) : ascii s = true -> well_formed s = true.
Proof.
  induction s as [|c s IH]; [reflexivity|].
  unfold ascii in *; cbn [forallb well_formed].
  rewrite andb_true_iff, N.ltb_lt; intros [Hc Hs].
  destruct (not_surrogate_below_128 c Hc) as [-> ->]; simpl; auto.
Qed.

Lemma ascii_app (a b : jsstring) : ascii (a ++ b) = ascii a && ascii b.
Proof. apply forallb_app. Qed.

Lemma well_formed_app (a b : jsstring) :
  well_formed a = true -> well_formed b = true -> well_formed (a ++ b) = true.
Proof.
  intros Ha Hb.
  assert (forall n a, (List.length a <= n)%nat ->
                      well_formed a = true -> well_formed (a ++ b) = true) as K.
  { clear a Ha; induction n as [|n IH]; intros a Hn Ha.
    - destruct a; [assumption | simpl in Hn; lia].
    - destruct a as [|c rest]; [assumption|].
      simpl in Hn; cbn [app well_formed] in *.
      destruct (is_high_surrogate c).
      + destruct rest as [|d rest']; [discriminate|].
        apply andb_true_iff in Ha; destruct Ha as [Hd Hrest].
        cbn [app]; rewrite Hd; simpl in Hn; apply IH; [lia | assumption].
      + apply andb_true_iff in Ha; destruct Ha as [Hc Hrest].
        rewrite Hc; apply IH; [lia | assumption]. }
  apply (K (List.length a)); [lia | assumption].
Qed.

Lemma well_formed_concat (l : list jsstring) :
  (forall s, In s l -> well_formed s = true) ->
  well_formed (List.concat l) = true.
Proof.
  induction l as [|s l IH]; intros H; [reflexivity|].
  cbn [List.concat]; apply well_formed_app; [apply H; left; reflexivity|].
  apply IH; intros; apply H; right; assumption.
Qed.

(** Well-formed text survives the encoding as UTF-8. *)
Lemma toWellFormed_id (s : jsstring) :
  well_formed s = true -> toWellFormed s = s.
Proof.
  assert (forall n s, (List.length s <= n)%nat ->
                      well_formed s = true -> toWellFormed s = s) as K.
  { clear s; induction n as [|n IH]; intros s Hn Hs.
    - destruct s; [reflexivity | simpl in Hn; lia].
    - destruct s as [|c rest]; [reflexivity|].
      simpl in Hn; cbn [toWellFormed well_formed] in *.
      destruct (is_high_surrogate c).
      + destruct rest as [|d rest']; [discriminate|].
        apply andb_true_iff in Hs; destruct Hs as [Hd Hrest].
        rewrite Hd; simpl in Hn; rewrite IH; [reflexivity | lia | assumption].
      + apply andb_true_iff in Hs; destruct Hs as [Hc Hrest].
        apply negb_true_iff in Hc; rewrite Hc.
        rewrite IH; [reflexivity | lia | assumption]. }
  apply (K (List.length s)); lia.
Qed.

Lemma unescaped_ascii (c : N) : unescaped c = true -> c < 128.
Proof.
  unfold unescaped, is_alpha, is_digit, mem; simpl.
  rewrite !orb_true_iff, !andb_true_iff, !N.leb_le, !N.eqb_eq.
  intros H; decompose [and or] H; subst; try lia; discriminate.
Qed.

Lemma lor_bound (a b n : N) : a < 2 ^ n -> b < 2 ^ n -> N.lor a b < 2 ^ n.
Proof.
  intros Ha Hb.
  destruct (N.eq_dec (N.lor a b) 0) as [->|Hne]; [lia|].
  apply N.log2_lt_pow2; [lia|].
  rewrite N.log2_lor.
  destruct (N.eq_dec a 0) as [->|Hna], (N.eq_dec b 0) as [->|Hnb];
    try (simpl in Hne; congruence).
  - rewrite N.max_r by (simpl; lia).
    apply N.log2_lt_pow2; [lia | assumption].
  - rewrite N.max_l by (simpl; lia).
    apply N.log2_lt_pow2; [lia | assumption].
  - apply N.max_lub_lt; apply N.log2_lt_pow2; try lia; assumption.
Qed.

Lemma continuation_octet (x : N) : N.lor 128 (N.land x 63) < 256.
Proof.
  apply (lor_bound _ _ 8); [reflexivity|].
  pose proof (N.land_le_r x 63); change (2 ^ 8) with 256; lia.
Qed.

Lemma shiftr_bound (v k q bound : N) :
  bound = 2 ^ k * q -> v < bound -> N.shiftr v k < q.
Proof.
  intros -> H; rewrite N.shiftr_div_pow2.
  apply N.Div0.div_lt_upper_bound; assumption.
Qed.

(** The octets of a code point are octets. *)
Lemma utf8_octets (v octet : N) : In octet (utf8 v) -> octet < 256.
Proof.
  unfold utf8.
  destruct (N.ltb_spec v 128); [intros [<-|[]]; lia|].
  destruct (N.ltb_spec v 2048).
  { intros [<-|[<-|[]]]; [|apply continuation_octet].
    apply (lor_bound _ _ 8); [reflexivity|].
    apply N.lt_trans with 32; [|reflexivity].
    apply (shiftr_bound _ _ _ 2048); [reflexivity | assumption]. }
  destruct (N.ltb_spec v 65536).
  { intros [<-|[<-|[<-|[]]]]; try apply continuation_octet.
    apply (lor_bound _ _ 8); [reflexivity|].
    apply N.lt_trans with 16; [|reflexivity].
    apply (shiftr_bound _ _ _ 65536); [reflexivity | assumption]. }
  intros [<-|[<-|[<-|[<-|[]]]]]; try apply continuation_octet.
  apply (lor_bound _ _ 8); [reflexivity|].
  pose proof (N.land_le_r (N.shiftr v 18) 7); change (2 ^ 8) with 256; lia.
Qed.

Lemma hex_digit_ascii (n : N) : n < 16 -> hex_digit n < 128.
Proof. unfold hex_digit; destruct (N.ltb_spec n 10); lia. Qed.

Lemma percent_ascii (octet : N) : octet < 256 -> ascii (percent octet) = true.
Proof.
  intros H; unfold ascii, percent; cbn [forallb].
  rewrite !andb_true_iff, !N.ltb_lt; repeat split; try reflexivity.
  - apply hex_digit_ascii, (shiftr_bound _ _ _ 256); [reflexivity | assumption].
  - apply hex_digit_ascii.
    pose proof (N.land_le_r octet 15); lia.
Qed.

Lemma escape_ascii (v : N) : ascii (escape v) = true.
Proof.
  unfold escape.
  pose proof (utf8_octets v) as H.
  induction (utf8 v) as [|octet octets IH]; [reflexivity|].
  cbn [flat_map]; rewrite ascii_app, percent_ascii, IH; auto.
  - intros; apply H; right; assumption.
  - apply H; left; reflexivity.
Qed.

(** When [encodeURI] returns, its argument was well formed and its result
    is ASCII. *)
Lemma encodeURI_well_formed (s out : jsstring) :
  encodeURI s = Some out -> well_formed s = true /\ ascii out = true.
Proof.
  revert s out; apply encodeURI_ind.
  - split; reflexivity.
  - intros c rest out Hu _ [IH1 IH2].
    pose proof (unescaped_ascii c Hu) as Hc.
    destruct (not_surrogate_below_128 c Hc) as [Hh Hl].
    cbn [well_formed]; rewrite Hh, Hl; split; [exact IH1|].
    unfold ascii in *; cbn [forallb]; rewrite IH2.
    apply N.ltb_lt in Hc; rewrite Hc; reflexivity.
  - intros c d rest out _ _ Hh Hd _ [IH1 IH2].
    cbn [well_formed]; rewrite Hh, Hd; split; [exact IH1|].
    rewrite ascii_app, IH2, escape_ascii; reflexivity.
  - intros c rest out _ Hs _ [IH1 IH2].
    assert (is_high_surrogate c = false /\ is_low_surrogate c = false)
      as [Hh Hl].
    { unfold is_surrogate, is_low_surrogate, is_high_surrogate in *.
      destruct (N.leb_spec 55296 c), (N.leb_spec c 57343),
        (N.leb_spec c 56319), (N.leb_spec 56320 c);
        simpl in *; try discriminate; split; try reflexivity; lia. }
    cbn [well_formed]; rewrite Hh, Hl; split; [exact IH1|].
    rewrite ascii_app, IH2, escape_ascii; reflexivity.
Qed.

Lemma list_item_well_formed (encoded file : jsstring) :
  encodeURI file = Some encoded ->
  well_formed (list_item encoded file) = true.
Proof.
  intros H; apply encodeURI_well_formed in H; destruct H as [Hf He].
  unfold list_item.
  apply well_formed_app; [reflexivity|].
  change (dquote :: encoded ++ dquote :: lit ">" ++ file
          ++ lit "</a></li>" ++ [newline])
    with ([dquote] ++ encoded ++ [dquote] ++ lit ">" ++ file
          ++ lit "</a></li>" ++ [newline]).
  repeat (apply well_formed_app;
          try reflexivity; try assumption; try (apply well_formed_ascii, He)).
Qed.

Lemma list_items_well_formed (files : list jsstring) :
  forall items,
    list_items files = Some items ->
    forall item, In item items -> well_formed item = true.
Proof.
  induction files as [|file rest IH]; cbn [list_items]; intros items H item Hin.
  - injection H as <-; destruct Hin.
  - destruct (encodeURI file) as [encoded|] eqn:E; [|discriminate].
    destruct (list_items rest) as [items'|]; [|discriminate].
    injection H as <-.
    destruct Hin as [<-|Hin]; [apply list_item_well_formed; assumption|].
    exact (IH _ eq_refl _ Hin).
Qed.

(** The rendered document is well formed: writing it as UTF-8 and reading
    it back gives the same text. *)
Lemma render_well_formed (files : list jsstring) (html : jsstring) :
  render files = Some html -> toWellFormed html = html.
Proof.
  rewrite render_spec.
  destruct (list_items files) as [items|] eqn:E; [|discriminate].
  cbn [option_map]; intros H.
  assert (html = header ++ List.concat items ++ footer) as -> by congruence.
  apply toWellFormed_id.
  apply well_formed_app; [reflexivity|].
  apply well_formed_app; [|reflexivity].
  apply well_formed_concat; exact (list_items_well_formed _ _ E).
Qed.

End EncodingFacts.

(** ** The writer *)

Section WriterFacts.

Lemma write_entry_lookup (name data : jsstring) (items : entries) :
  forall items',
    write_entry name data items = Some items' ->
    lookup name items' = Some (File (toWellFormed data)).
Proof.
  induction items as [|[n d] rest IH]; simpl; intros items' H.
  - injection H as <-; simpl; rewrite eqb_refl; reflexivity.
  - destruct (JsString.eqb n name) eqn:E.
    + destruct d; try discriminate.
      injection H as <-; simpl; rewrite E; reflexivity.
    + destruct (write_entry name data rest) as [r|]; [|discriminate].
      injection H as <-; simpl; rewrite E; auto.
Qed.

Lemma write_entry_total (name data : jsstring) (items : entries) :
  (lookup name items = None
   \/ exists content, lookup name items = Some (File content)) ->
  exists items', write_entry name data items = Some items'.
Proof.
  induction items as [|[n d] rest IH]; simpl; intros H.
  - eauto.
  - destruct (JsString.eqb n name).
    + destruct H as [H|[content H]]; [discriminate|].
      injection H as ->; eauto.
    + destruct (IH H) as [r ->]; simpl; eauto.
Qed.

Lemma writeFileSync_read (root root' : node) (name data : jsstring) :
  writeFileSync root name data = Some root' ->
  readFileSync root' name = Some (toWellFormed data).
Proof.
  destruct root as [|items|]; simpl; try discriminate.
  destruct (write_entry name data items) as [items'|] eqn:E; [|discriminate].
  intros H; injection H as <-; simpl.
  rewrite (write_entry_lookup _ _ _ _ E); reflexivity.
Qed.

(** After the rendered document was written, the file holds it. *)
Lemma render_written
  (root root' : node) (name html : jsstring) (files : list jsstring) :
  render files = Some html ->
  writeFileSync root name html = Some root' ->
  readFileSync root' name = Some html.
Proof.
  intros Hr Hw; rewrite (writeFileSync_read _ _ _ _ Hw).
  rewrite (render_well_formed _ _ Hr); reflexivity.
Qed.

(** The traversal does not see a written file whose name the pattern
    rejects. *)
Lemma write_entry_walk (name data : jsstring) (items : entries) :
  test name = false ->
  forall items',
    write_entry name data items = Some items' ->
    forall dir fileList,
      walk_items dir items' fileList = walk_items dir items fileList.
Proof.
  intros Hname; induction items as [|[n d] rest IH]; simpl;
    intros items' H dir fileList.
  - injection H as <-; simpl; rewrite Hname.
    destruct (startsWith name (lit ".")); reflexivity.
  - destruct (JsString.eqb n name) eqn:E.
    + destruct d; try discriminate.
      injection H as <-; reflexivity.
    + destruct (write_entry name data rest) as [r|]; [|discriminate].
      injection H as <-; simpl.
      destruct (startsWith n (lit ".")); [apply IH; reflexivity|].
      destruct d as [content|sub|]; [| |reflexivity].
      * destruct (test n); apply IH; reflexivity.
      * destruct (walk (Path.join dir n) (Dir sub) fileList);
          [apply IH|]; reflexivity.
Qed.

Lemma outputPath_rejected : test outputPath = false.
Proof. reflexivity. Qed.

Lemma writeFileSync_collected (root root' : node) (data : jsstring) :
  writeFileSync root outputPath data = Some root' ->
  collected root' = collected root.
Proof.
  destruct root as [|items|]; simpl; try discriminate.
  destruct (write_entry outputPath data items) as [items'|] eqn:E;
    [|discriminate].
  intros H; injection H as <-.
  unfold collected; rewrite !walk_Dir.
  exact (write_entry_walk _ _ _ outputPath_rejected _ E _ _).
Qed.

(** An entry the traversal was able to pass is not a broken one, unless it
    is hidden. *)
Lemma lookup_readable (name : jsstring) (items : entries) :
  forallb entry_readable items = true ->
  lookup name items = Some Broken -> hidden name = true.
Proof.
  induction items as [|[n d] rest IH]; simpl; [discriminate|].
  rewrite andb_true_iff; intros [He Hrest].
  destruct (JsString.eqb n name) eqn:E; [|auto].
  intros H; injection H as ->.
  apply eqb_eq in E; subst n.
  unfold entry_readable in He; simpl in He.
  rewrite orb_false_r in He; assumption.
Qed.

Lemma collected_readable (root : node) (fileList : list jsstring) :
  collected root = Some fileList -> readable root = true.
Proof.
  rewrite collected_spec; destruct (readable root); [reflexivity|discriminate].
Qed.

(** The two ways a run ends. *)
Lemma main_cases (w : world) (root' : node) (effects : list effect) :
  main w = Some (root', effects) ->
  exists files html,
    files_of_run (cwd w) = Some files /\ render files = Some html
    /\ ((root' = cwd w
         /\ readFileSync (cwd w) outputPath = Some html
         /\ effects = [Log Skipped; Log (Count (List.length files))])
        \/ (writeFileSync (cwd w) outputPath html = Some root'
            /\ readFileSync (cwd w) outputPath <> Some html
            /\ effects = [Write outputPath html;
                          Log (Updated (List.length files))])).
Proof.
  unfold main.
  destruct (files_of_run (cwd w)) as [files|] eqn:Hf; [|discriminate].
  destruct (render files) as [html|] eqn:Hr; [|discriminate].
  intros H; exists files, html; split; [reflexivity|]; split; [exact Hr|].
  unfold decide_write in H.
  destruct (existsSync (cwd w) outputPath) eqn:Hex.
  - destruct (readFileSync (cwd w) outputPath) as [existing|] eqn:Hread;
      [|discriminate].
    destruct (JsString.eqb existing html) eqn:E.
    + apply eqb_eq in E; subst existing.
      injection H as <- <-; left; auto.
    + destruct (writeFileSync (cwd w) outputPath html) as [r|] eqn:Hw;
        [|discriminate].
      injection H as <- <-; right; repeat split.
      intros K; injection K as ->; rewrite eqb_refl in E; discriminate.
  - destruct (writeFileSync (cwd w) outputPath html) as [r|] eqn:Hw;
      [|discriminate].
    injection H as <- <-; right; repeat split.
    intros K; revert Hex; unfold existsSync, readFileSync in *.
    destruct (cwd w) as [|items|]; try discriminate.
    destruct (lookup outputPath items) as [[| |]|]; discriminate.
Qed.

Lemma read_exists (root : node) (name content : jsstring) :
  readFileSync root name = Some content -> existsSync root name = true.
Proof.
  unfold existsSync, readFileSync.
  destruct root as [|items|]; try discriminate.
  destruct (lookup name items) as [[| |]|]; try discriminate; reflexivity.
Qed.

Lemma main_unchanged (w : world) (files : list jsstring) (html : jsstring) :
  files_of_run (cwd w) = Some files -> render files = Some html ->
  readFileSync (cwd w) outputPath = Some html ->
  main w = Some (cwd w, [Log Skipped; Log (Count (List.length files))]).
Proof.
  intros Hf Hr Hread; unfold main, decide_write.
  rewrite Hf, Hr, Hread.
  rewrite (read_exists _ _ _ Hread), eqb_refl; reflexivity.
Qed.

Lemma main_written (w : world) (files : list jsstring) (html : jsstring) :
  files_of_run (cwd w) = Some files -> render files = Some html ->
  (existsSync (cwd w) outputPath = false
   \/ exists existing,
       readFileSync (cwd w) outputPath = Some existing /\ existing <> html) ->
  exists root',
    main w = Some (root', [Write outputPath html;
                           Log (Updated (List.length files))])
    /\ readFileSync root' outputPath = Some html.
Proof.
  intros Hf Hr Hcase.
  assert (exists root', writeFileSync (cwd w) outputPath html = Some root')
    as [root' Hw].
  { unfold files_of_run in Hf.
    destruct (collected (cwd w)) as [fileList|] eqn:Hc; [|discriminate].
    apply collected_readable in Hc.
    unfold existsSync, readFileSync, writeFileSync in *.
    destruct (cwd w) as [|items|]; try discriminate.
    rewrite readable_Dir in Hc.
    destruct (write_entry_total outputPath html items) as [items' ->];
      [|simpl; eauto].
    destruct (lookup outputPath items) as [[content|sub|]|] eqn:Hl; eauto.
    - destruct Hcase as [?|(existing & ? & _)]; discriminate.
    - pose proof (lookup_readable _ _ Hc Hl); discriminate. }
  exists root'; split; [|exact (render_written _ _ _ _ _ Hr Hw)].
  unfold main, decide_write; rewrite Hf, Hr.
  destruct Hcase as [->|(existing & Hread & Hne)].
  - rewrite Hw; reflexivity.
  - rewrite (read_exists _ _ _ Hread), Hread.
    destruct (JsString.eqb existing html) eqn:E;
      [apply eqb_eq in E; contradiction|].
    rewrite Hw; reflexivity.
Qed.

End WriterFacts.

(** ** Hidden entries, listing order and the variant *)

Section TreeFacts.




Lemma same_tree_refl (d : node) : same_tree d d.
Proof.
  induction d as [content| |items IH] using node_ind'; try constructor.
  apply same_Dir with (items := items); [|reflexivity].
  induction IH; constructor; auto.
Qed.

Lemma same_tree_files (d1 : node) :
  forall d2,
    same_tree d1 d2 ->
    readable d1 = readable d2 /\ Permutation (files_of d1) (files_of d2).
Proof.
  induction d1 as [content| |items1 IH] using node_ind'; intros d2 H;
    inversion H as [| |? items items2 Hall Hperm]; subst;
    try (split; reflexivity).
  rewrite !readable_Dir, !files_of_Dir.
  rewrite <- (forallb_perm entry_readable _ _ Hperm).
  rewrite <- (Permutation_flat_map entry_files Hperm).
  clear H Hperm items2.
  induction Hall as [|[n1 e1] [n2 e2] l1 l2 [Hn He] _ IHall];
    [split; reflexivity|].
  apply Forall_cons_iff in IH; destruct IH as [IH1 IH2].
  destruct (IHall IH2) as [Hr Hf]; clear IHall IH2.
  cbn [fst snd] in *; subst n2.
  destruct (IH1 _ He) as [Hr1 Hf1].
  cbn [forallb flat_map]; rewrite Hr.
  assert (entry_readable (n1, e1) = entry_readable (n1, e2)) as ->.
  { unfold entry_readable; cbn [fst snd].
    inversion He; subst; try reflexivity.
    rewrite Hr1; reflexivity. }
  split; [reflexivity|].
  apply Permutation_app; [|assumption].
  unfold entry_files; cbn [fst snd].
  inversion He; subst; try reflexivity.
  apply Permutation_map; assumption.
Qed.

Lemma filter_perm {A : Type} (f : A -> bool) (l1 l2 : list A) :
  Permutation l1 l2 -> Permutation (filter f l1) (filter f l2).
Proof.
  induction 1; simpl.
  - constructor.
  - destruct (f x); [constructor|]; assumption.
  - destruct (f x), (f y); try reflexivity; apply perm_swap.
  - etransitivity; eassumption.
Qed.

Lemma same_tree_files_of_run (d1 d2 : node) :
  same_tree d1 d2 -> files_of_run d1 = files_of_run d2.
Proof.
  intros H; apply same_tree_files in H; destruct H as [Hr Hf].
  unfold files_of_run; rewrite !collected_spec, Hr.
  destruct (readable d2); [|reflexivity].
  simpl; f_equal; apply sort_of_perm, Permutation_map, filter_perm, Hf.
Qed.

End TreeFacts.

Section VariantFacts.

Lemma walk_variant_Dir (dir : jsstring) (items : entries) :
  walk_variant dir (Dir items) = walk_variant_items dir items [].
Proof.
  simpl walk_variant.
  match goal with
  | |- ?forEach items [] = _ =>
      enough (forall results,
                 forEach items results = walk_variant_items dir items results)
        as K by apply K
  end.
  induction items as [|[file entry] rest IH]; intros results; [reflexivity|].
  simpl walk_variant_items.
  destruct entry as [content|sub|]; [| |reflexivity].
  - destruct (test file); apply IH.
  - destruct (walk_variant (Path.join dir file) (Dir sub));
      [apply IH | reflexivity].
Qed.

Lemma slashes_tame (p : jsstring) : mem backslash p = false -> Path.slashes p = p.
Proof.
  unfold mem, Path.slashes.
  induction p as [|c p IH]; cbn [existsb List.map]; [reflexivity|].
  rewrite orb_false_iff; intros [Hc Hp].
  rewrite N.eqb_sym in Hc; rewrite Hc, IH by assumption; reflexivity.
Qed.

Lemma hidden_cons (c : N) (p : jsstring) : hidden (c :: p) = (c =? dot).
Proof.
  unfold hidden; cbn [startsWith lit List.map list_ascii_of_string].
  change (N_of_ascii ".") with dot.
  replace (startsWith p []) with true by (destruct p; reflexivity).
  apply andb_true_r.
Qed.


Lemma mem_app (c : N) (a b : jsstring) : mem c (a ++ b) = mem c a || mem c b.
Proof. unfold mem; apply existsb_app. Qed.



End VariantFacts.

(** * The filter *)

Section FilterClaims.

Lemma kept_listed (cs : list jsstring) : kept cs = listed_and_visible cs.
Proof.
  unfold kept, listed_and_visible; rewrite test_extension; apply andb_comm.
Qed.

(** C1, as amended.  When the traversal completes, the collected list is,
    in listing order, the relative paths of exactly those files of the tree
    whose extension, compared without case, is one of txt, md, json, csv,
    log, ini, xml, yaml, yml, and for which no name on the way from the
    root starts with a dot: neither the name of a directory above the file
    nor the name of the file itself. *)
Theorem filter_correctness (root : node) (fileList : list jsstring) :
  collected root = Some fileList ->
  fileList
  = List.map Path.relPath_of (filter listed_and_visible (files_of root)).
Proof.
  rewrite collected_spec; destruct (readable root); [|discriminate].
  intros H; injection H as <-.
  f_equal; apply filter_ext; exact kept_listed.
Qed.

Lemma filter_correctness_witness :
  List.map lit ["README.md"; "data.json"; "sub/log.log"]%string
  = List.map Path.relPath_of (filter listed_and_visible (files_of scenario)).
Proof. apply (filter_correctness scenario); reflexivity. Defined.

(** C1, as stated, fails: a file [.notes.txt] in the root has the
    extension txt and no directory above it, and it is not collected. *)
Lemma filter_ignores_own_dot :
  ~ (forall fileList,
        collected dotfile_tree = Some fileList ->
        fileList
        = List.map Path.relPath_of
            (filter listed_below_visible (files_of dotfile_tree))).
Proof.
  intros H; specialize (H [] eq_refl); vm_compute in H; discriminate.
Qed.

End FilterClaims.

(** * The sort *)

Section SortClaims.

(** C3, as amended.  The paths passed to the renderer are the collected
    paths in ascending order of their UTF-16 code units, compared
    lexicographically.  When no path contains a surrogate, that is the
    order of the code points.  [b.txt], [a.md], [a/a.txt] are listed as
    [a.md], [a/a.txt], [b.txt], and [README.md] comes before
    [data.json]. *)
Theorem sorted_by_code_units :
  (forall root files,
      files_of_run root = Some files ->
      Sorted unit_le files
      /\ (forallb plain files = true -> Sorted code_point_le files)
      /\ exists fileList,
          collected root = Some fileList /\ Permutation fileList files)
  /\ sort (List.map lit ["b.txt"; "a.md"; "a/a.txt"]%string)
     = List.map lit ["a.md"; "a/a.txt"; "b.txt"]%string
  /\ sort (List.map lit ["data.json"; "README.md"]%string)
     = List.map lit ["README.md"; "data.json"]%string.
Proof.
  split; [|split; reflexivity].
  intros root files; unfold files_of_run.
  destruct (collected root) as [fileList|]; [|discriminate].
  intros H; injection H as <-.
  split; [apply sort_sorted|]; split.
  - intros Hp; apply sorted_plain; [assumption | apply sort_sorted].
  - exists fileList; split; [reflexivity | apply sort_perm].
Qed.

Lemma sorted_by_code_units_witness :
  Sorted unit_le (List.map lit ["README.md"; "data.json"; "sub/log.log"]%string)
  /\ Sorted code_point_le
       (List.map lit ["README.md"; "data.json"; "sub/log.log"]%string).
Proof.
  destruct (proj1 sorted_by_code_units scenario
              (List.map lit ["README.md"; "data.json"; "sub/log.log"]%string)
              eq_refl) as (H1 & H2 & _).
  split; [exact H1 | apply H2; reflexivity].
Defined.

(** C3, as stated, fails: U+FF21 is a smaller code point than U+1F600,
    but the first code unit of U+1F600, D83D, is smaller than FF21, so the
    name that starts with U+1F600 is listed first. *)
Lemma code_point_order_fails :
  ~ (forall files,
        files_of_run astral_tree = Some files -> Sorted code_point_le files).
Proof.
  intros H.
  assert (files_of_run astral_tree
          = Some [55357 :: 56832 :: lit ".txt"; 65313 :: lit ".txt"]) as E
    by reflexivity.
  apply H in E.
  apply Sorted_inv in E; destruct E as [_ E].
  apply HdRel_inv in E; unfold code_point_le in E.
  vm_compute in E; discriminate.
Qed.

End SortClaims.

(** * The renderer *)

Section RendererClaims.

Lemma encodeURI_unescaped (c : N) (rest : jsstring) :
  unescaped c = true ->
  encodeURI (c :: rest) = option_map (cons c) (encodeURI rest).
Proof. intros H; simpl; rewrite H; reflexivity. Qed.

Lemma encodeURI_escaped (c : N) (rest : jsstring) :
  unescaped c = false -> is_surrogate c = false ->
  encodeURI (c :: rest) = option_map (app (escape c)) (encodeURI rest).
Proof.
  intros Hu Hs; cbn [encodeURI]; rewrite Hu.
  unfold is_surrogate, is_low_surrogate, is_high_surrogate in *.
  destruct (N.leb_spec 55296 c), (N.leb_spec c 57343), (N.leb_spec c 56319),
    (N.leb_spec 56320 c); simpl in *; try reflexivity; try discriminate; lia.
Qed.

(** What the renderer writes.  For every path of the sorted list, in
    order, the document has one list item whose link target is [encodeURI]
    of the path and whose visible text is the path as it is.  [encodeURI]
    copies letters, digits, the marks [- _ . ! ~ * ' ( )] and the reserved
    characters [; / ? : @ & = + $ , #]; every other character is written as
    the percent escapes of its UTF-8 octets; [notes 1.txt] gives
    [notes%201.txt]. *)
Theorem items_link_encoded_paths :
  (forall files html,
      render files = Some html ->
      exists items,
        html = header ++ List.concat items ++ footer
        /\ Forall2
             (fun file item =>
                exists encoded,
                  encodeURI file = Some encoded
                  /\ item
                     = lit "    <li><a href=" ++ dquote :: encoded
                       ++ dquote :: lit ">" ++ file ++ lit "</a></li>"
                       ++ [newline])
             files items)
  /\ (forall c rest,
         unescaped c = true ->
         encodeURI (c :: rest) = option_map (cons c) (encodeURI rest))
  /\ (forall c rest,
         unescaped c = false -> is_surrogate c = false ->
         encodeURI (c :: rest) = option_map (app (escape c)) (encodeURI rest))
  /\ forallb unescaped (lit ";/?:@&=+$,#") = true
  /\ encodeURI (lit "notes 1.txt") = Some (lit "notes%201.txt").
Proof.
  split; [|split; [exact encodeURI_unescaped|split;
                   [exact encodeURI_escaped|split; reflexivity]]].
  intros files html; rewrite render_spec.
  destruct (list_items files) as [items|] eqn:E; [|discriminate].
  intros H; injection H as <-.
  exists items; split; [reflexivity|].
  exact (list_items_Forall2 _ _ E).
Qed.

Lemma items_link_encoded_paths_witness :
  exists items,
    header
    ++ list_item (lit "notes%201.txt") (lit "notes 1.txt")
    ++ list_item (lit "sub/a?b.txt") (lit "sub/a?b.txt") ++ footer
    = header ++ List.concat items ++ footer
    /\ Forall2
         (fun file item =>
            exists encoded,
              encodeURI file = Some encoded
              /\ item
                 = lit "    <li><a href=" ++ dquote :: encoded
                   ++ dquote :: lit ">" ++ file ++ lit "</a></li>"
                   ++ [newline])
         [lit "notes 1.txt"; lit "sub/a?b.txt"] items.
Proof.
  apply (proj1 items_link_encoded_paths).
  vm_compute; reflexivity.
Defined.

(** The question mark is a reserved character, and the link target of
    [a?b.txt] is [a?b.txt]. *)
Lemma reserved_characters_not_encoded :
  ~ (forall href,
        encodeURI (lit "a?b.txt") = Some href -> reserved_encoded href).
Proof.
  intros H; specialize (H _ eq_refl 63).
  assert (mem 63 uri_reserved = false) as K.
  { apply H; [simpl; tauto | discriminate]. }
  discriminate K.
Qed.

Lemma count_items (files items : list jsstring) (file encoded : jsstring) :
  Forall2
    (fun f item =>
       exists e, encodeURI f = Some e /\ item = list_item e f)
    files items ->
  encodeURI file = Some encoded ->
  count_occ jsstring_eq_dec items (list_item encoded file)
  = count_occ jsstring_eq_dec files file.
Proof.
  intros H Henc; induction H as [|f item files items (e & He & ->) _ IH];
    [reflexivity|].
  destruct (jsstring_eq_dec f file) as [->|Hne].
  - assert (e = encoded) as -> by congruence.
    rewrite !count_occ_cons_eq by reflexivity; congruence.
  - rewrite !count_occ_cons_neq; [assumption|assumption|].
    intros K; apply Hne; exact (list_item_inj _ _ _ _ He Henc K).
Qed.

End RendererClaims.

(** * The writer *)

Section WriterClaims.

(** C5.  When [index.html] exists with exactly the text of the rendered
    document, the run writes nothing, leaves the tree as it is and reports
    that the file is unchanged.  When there is no [index.html], or its text
    differs, the run writes the whole document to [index.html] and reports
    the update. *)
Theorem write_only_when_changed
  (w : world) (files : list jsstring) (html : jsstring) :
  files_of_run (cwd w) = Some files ->
  render files = Some html ->
  (readFileSync (cwd w) outputPath = Some html ->
   main w = Some (cwd w, [Log Skipped; Log (Count (List.length files))]))
  /\ (existsSync (cwd w) outputPath = false
      \/ (exists existing,
             readFileSync (cwd w) outputPath = Some existing
             /\ existing <> html) ->
      exists root',
        main w = Some (root', [Write outputPath html;
                               Log (Updated (List.length files))])
        /\ readFileSync root' outputPath = Some html).
Proof.
  intros Hf Hr; split.
  - apply main_unchanged; assumption.
  - apply main_written; assumption.
Qed.

Lemma write_only_when_changed_witness :
  main (World scenario_indexed [])
  = Some (scenario_indexed, [Log Skipped; Log (Count 3)])
  /\ (exists root',
         main (World scenario_stale [])
         = Some (root', [Write outputPath scenario_document;
                         Log (Updated 3)])
         /\ readFileSync root' outputPath = Some scenario_document).
Proof.
  split.
  - apply (proj1 (write_only_when_changed (World scenario_indexed [])
                    (List.map lit ["README.md"; "data.json"; "sub/log.log"]%string)
                    scenario_document eq_refl eq_refl)).
    reflexivity.
  - apply (proj2 (write_only_when_changed (World scenario_stale [])
                    (List.map lit ["README.md"; "data.json"; "sub/log.log"]%string)
                    scenario_document eq_refl eq_refl)).
    right; exists (lit "<html></html>"); split; [reflexivity|].
    vm_compute; discriminate.
Defined.

Lemma footer_ends (body : jsstring) :
  exists body', body ++ footer = body' ++ lit "</html>".
Proof.
  exists (body ++ line "  </ul>" ++ paragraph footer_note ++ line "</body>").
  unfold footer, closing; rewrite <- !app_assoc; reflexivity.
Qed.

Lemma rendered_ends (w : world) (html : jsstring) :
  rendered w = Some html -> exists body, html = body ++ lit "</html>".
Proof.
  unfold rendered.
  destruct (files_of_run (cwd w)) as [files|]; [|discriminate].
  rewrite render_spec.
  destruct (list_items files) as [items|]; [|discriminate].
  intros H; cbn [option_map] in H.
  assert (html = (header ++ List.concat items) ++ footer) as ->
    by (rewrite <- app_assoc; congruence).
  apply footer_ends.
Qed.

(** C7.  A run performs at most one write.  The write, when there is one,
    is to [index.html], its data is the rendered document, the file holds
    exactly that text afterwards, and the text ends with the closing tag
    of the document, without a line end after it. *)
Theorem at_most_one_write (w : world) :
  (List.length (writes (effects_of (main w))) <= 1)%nat
  /\ forall e,
      In e (writes (effects_of (main w))) ->
      exists html root' effects,
        rendered w = Some html
        /\ e = Write (lit "index.html") html
        /\ main w = Some (root', effects)
        /\ readFileSync root' (lit "index.html") = Some html
        /\ exists body, html = body ++ lit "</html>".
Proof.
  destruct (main w) as [[root' effects]|] eqn:Hm;
    [|split; [simpl; lia | intros e []]].
  destruct (main_cases _ _ _ Hm)
    as (files & html & Hf & Hr & [(-> & Hread & ->)|(Hw & _ & ->)]).
  - split; [simpl; lia | intros e []].
  - split; [simpl; lia|].
    intros e [<-|[]].
    assert (rendered w = Some html) as Hdoc
      by (unfold rendered; rewrite Hf; exact Hr).
    exists html, root', [Write outputPath html;
                          Log (Updated (List.length files))].
    repeat split; try assumption.
    + exact (render_written _ _ _ _ _ Hr Hw).
    + exact (rendered_ends _ _ Hdoc).
Qed.

Lemma at_most_one_write_witness :
  exists html root' effects,
    rendered (World scenario []) = Some html
    /\ Write outputPath scenario_document = Write (lit "index.html") html
    /\ main (World scenario []) = Some (root', effects)
    /\ readFileSync root' (lit "index.html") = Some html
    /\ exists body, html = body ++ lit "</html>".
Proof.
  apply (proj2 (at_most_one_write (World scenario []))).
  vm_compute; left; reflexivity.
Defined.

Lemma word_slashes (rest word : jsstring) :
  forallb lower_letter word = true ->
  JsString.eqb (List.map to_lower (Path.slashes rest)) word
  = JsString.eqb (List.map to_lower rest) word.
Proof.
  revert word; induction rest as [|c rest IH]; intros [|p word] Hw;
    try reflexivity.
  cbn [forallb] in Hw; apply andb_true_iff in Hw; destruct Hw as [Hp Hw].
  unfold Path.slashes in *; cbn [List.map JsString.eqb].
  rewrite IH by assumption; f_equal.
  unfold lower_letter in Hp; rewrite andb_true_iff, !N.leb_le in Hp.
  unfold backslash, slash.
  destruct (N.eqb_spec c 92) as [->|Hc]; [|reflexivity].
  change (to_lower 47) with 47; change (to_lower 92) with 92.
  destruct (N.eqb_spec 47 p), (N.eqb_spec 92 p); try reflexivity; lia.
Qed.

(** The pattern does not see whether separators are slashes or
    backslashes. *)
Lemma test_slashes (p : jsstring) : test (Path.slashes p) = test p.
Proof.
  induction p as [|c p IH]; [reflexivity|].
  change (Path.slashes (c :: p))
    with ((if c =? backslash then slash else c) :: Path.slashes p).
  change (test (?x :: ?l)) with (match_here (x :: l) || test l).
  rewrite IH, !match_here_spec; f_equal; f_equal.
  - unfold backslash, slash, dot.
    destruct (N.eqb_spec c 92) as [->|]; reflexivity.
  - pose proof alternatives_lower as H; rewrite forallb_forall in H.
    change whitelist with alternatives.
    induction alternatives as [|word words IHw]; [reflexivity|].
    cbn [existsb]; rewrite word_slashes by (apply H; left; reflexivity).
    f_equal; apply IHw; intros x Hx; apply H; right; assumption.
Qed.

Lemma join_all_last (cs : list jsstring) :
  cs <> [] -> exists prefix, Path.join_all cs = prefix ++ last cs [].
Proof.
  induction cs as [|c cs IH]; [congruence|]; intros _.
  destruct cs as [|c2 cs]; [exists []; reflexivity|].
  destruct IH as [prefix Hp]; [discriminate|].
  exists (c ++ slash :: prefix).
  change (Path.join_all (c :: c2 :: cs))
    with (c ++ slash :: Path.join_all (c2 :: cs)).
  rewrite Hp, <- app_assoc; reflexivity.
Qed.

(** Every collected path passes the pattern. *)
Lemma collected_test (root : node) (fileList : list jsstring) :
  collected root = Some fileList ->
  forall p, In p fileList -> test p = true.
Proof.
  rewrite collected_spec; destruct (readable root); [|discriminate].
  intros H; injection H as <-; intros p Hp.
  apply in_map_iff in Hp; destruct Hp as (cs & <- & Hcs).
  apply filter_In in Hcs; destruct Hcs as [Hin Hk].
  unfold kept in Hk; apply andb_true_iff in Hk; destruct Hk as [_ Hk].
  unfold Path.relPath_of; rewrite test_slashes.
  destruct (join_all_last cs (files_of_nonempty _ _ Hin)) as [prefix ->].
  apply test_app_suffix; assumption.
Qed.

(** C10.  The generated file never indexes itself.  The pattern rejects
    [index.html], so the collected list never has the path [index.html];
    and after a run that completed, a second run over the tree it left
    renders the same document, writes nothing and reports that the file is
    unchanged. *)
Theorem output_never_indexed :
  test (lit "index.html") = false
  /\ (forall root fileList,
         collected root = Some fileList -> ~ In (lit "index.html") fileList)
  /\ (forall w root' effects,
         main w = Some (root', effects) ->
         forall later,
           rendered (World root' later) = rendered w
           /\ exists count,
               main (World root' later)
               = Some (root', [Log Skipped; Log (Count count)])).
Proof.
  split; [reflexivity|]; split.
  - intros root fileList H Hin.
    pose proof (collected_test _ _ H _ Hin) as K; discriminate K.
  - intros w root' effects Hm later.
    destruct (main_cases _ _ _ Hm)
      as (files & html & Hf & Hr & Hcase).
    assert (files_of_run root' = Some files
            /\ readFileSync root' outputPath = Some html) as [Hf' Hread].
    { destruct Hcase as [(-> & Hread & _)|(Hw & _ & _)]; [auto|].
      split; [|exact (render_written _ _ _ _ _ Hr Hw)].
      unfold files_of_run in *.
      rewrite (writeFileSync_collected _ _ _ Hw); assumption. }
    split.
    + unfold rendered; simpl cwd; rewrite Hf, Hf'; reflexivity.
    + exists (List.length files).
      exact (main_unchanged (World root' later) files html Hf' Hr Hread).
Qed.

Lemma output_never_indexed_witness :
  rendered (World scenario_indexed (lit "later")) = rendered (World scenario [])
  /\ exists count,
      main (World scenario_indexed (lit "later"))
      = Some (scenario_indexed, [Log Skipped; Log (Count count)]).
Proof.
  apply (proj2 (proj2 output_never_indexed) (World scenario [])
           scenario_indexed
           [Write outputPath scenario_document; Log (Updated 3)]).
  vm_compute; reflexivity.
Defined.

End WriterClaims.

(** * Determinism and the variant *)

Section VariantClaims.

(** C6.  The document is determined by the tree alone.  Two runs over the
    same tree, whatever the time of day and whatever the order in which
    the directories are listed, render the same text or both abort. *)
Theorem rendering_deterministic (w1 w2 : world) :
  same_tree (cwd w1) (cwd w2) -> rendered w1 = rendered w2.
Proof.
  intros H; unfold rendered.
  rewrite (same_tree_files_of_run _ _ H); reflexivity.
Qed.

Lemma scenario_same_tree : same_tree scenario scenario_reordered.
Proof.
  apply same_Dir with
    (items := [file "README.md"; file "data.json";
               dir ".hidden" [file "secret.txt"];
               dir "sub" [file "log.log"]]).
  - repeat constructor; apply same_tree_refl.
  - apply Permutation_sym.
    apply (Permutation_cons_app [file "README.md"; file "data.json";
                                 dir ".hidden" [file "secret.txt"]] []).
    simpl.
    apply perm_skip.
    apply perm_swap.
Qed.

Lemma rendering_deterministic_witness :
  rendered (World scenario (lit "2024/1/1 08:00:00"))
  = rendered (World scenario_reordered (lit "2024/1/2 09:30:00")).
Proof. apply rendering_deterministic; exact scenario_same_tree. Defined.

(** The variant writes on every run that completes. *)
Lemma main_variant_writes (w : world) (root' : node) (effects : list effect) :
  main_variant w = Some (root', effects) ->
  exists html, writes effects = [Write outputPath html].
Proof.
  unfold main_variant.
  destruct (option_map sort (walk_variant rootDir (cwd w))) as [files|];
    [|discriminate].
  destruct (render_variant (now w) files) as [html|]; [|discriminate].
  destruct (writeFileSync (cwd w) outputPath html); [|discriminate].
  intros H; injection H as <- <-; exists html; reflexivity.
Qed.

(** The variant embeds the time: two runs over one tree at different
    times give different texts. *)
Lemma variant_not_deterministic :
  rendered_variant (World scenario (lit "2024/1/1 08:00:00"))
  <> rendered_variant (World scenario (lit "2024/1/2 09:30:00")).
Proof. vm_compute; discriminate. Qed.






End VariantClaims.

(** * More on the traversal *)

Section TraversalCoverage.

(** X1.  The traversal of [generate_index.js] completes exactly when every
    entry it reaches can be examined: the start is a directory, and below
    it no entry with a name that does not start with a dot is broken, at
    any depth under directories with such names.  Entries with a name that
    starts with a dot are skipped before [statSync] is called on them, so
    they never abort it. *)
Theorem traversal_completes_iff_readable (root : node) :
  (exists fileList, collected root = Some fileList) <-> readable root = true.
Proof.
  rewrite collected_spec; destruct (readable root); split; intros H;
    try reflexivity; try discriminate; eauto.
  destruct H as [fileList H]; discriminate.
Qed.

Lemma traversal_completes_iff_readable_witness :
  (exists fileList, collected scenario_hidden_broken = Some fileList)
  /\ ~ (exists fileList, collected scenario_broken = Some fileList).
Proof.
  split.
  - apply (proj2 (traversal_completes_iff_readable scenario_hidden_broken)).
    reflexivity.
  - intros H.
    apply (proj1 (traversal_completes_iff_readable scenario_broken)) in H.
    discriminate H.
Defined.

(** X2.  [walk] only appends to the array it is given: what a call returns
    is the given array followed by what the same call collects into an
    empty one, and it aborts for a given array exactly when it aborts for
    the empty one. *)
Theorem walk_only_appends
  (dir : jsstring) (d : node) (fileList : list jsstring) :
  walk dir d fileList = option_map (app fileList) (walk dir d []).
Proof.
  rewrite !walk_spec; destruct (readable d); reflexivity.
Qed.

Lemma readable_variant_Dir (items : entries) :
  readable_variant (Dir items) = forallb entry_readable_variant items.
Proof. reflexivity. Qed.

Lemma passes_cons (item : jsstring) (cs : list jsstring) :
  cs <> [] -> passes (item :: cs) = passes cs.
Proof.
  intros H; unfold passes; destruct cs; [contradiction | reflexivity].
Qed.

Lemma filter_passes_cons (item : jsstring) (l : list (list jsstring)) :
  (forall cs, In cs l -> cs <> []) ->
  filter passes (List.map (cons item) l)
  = List.map (cons item) (filter passes l).
Proof.
  induction l as [|cs l IH]; intros H; [reflexivity|].
  cbn [List.map filter].
  rewrite passes_cons by (apply H; left; reflexivity).
  rewrite IH by (intros; apply H; right; assumption).
  destruct (passes cs); reflexivity.
Qed.

(** What the loop of the variant returns. *)
Lemma walk_variant_spec (d : node) :
  forall dir,
    walk_variant dir d
    = if readable_variant d then
        Some (List.map (fun cs => Path.strip_dot_slash (path_from dir cs))
                (filter passes (files_of d)))
      else None.
Proof.
  induction d as [content| |items IH] using node_ind'; try reflexivity.
  intros dir.
  rewrite walk_variant_Dir, files_of_Dir, readable_variant_Dir.
  change (List.map (fun cs => Path.strip_dot_slash (path_from dir cs))
            (filter passes (flat_map entry_files items)))
    with ([] ++ List.map (fun cs => Path.strip_dot_slash (path_from dir cs))
                  (filter passes (flat_map entry_files items))).
  generalize (@nil jsstring) as results.
  induction IH as [|[item entry] rest Hentry _ IHrest]; intros results.
  - simpl; rewrite app_nil_r; reflexivity.
  - cbn [flat_map forallb walk_variant_items].
    rewrite filter_app, map_app.
    cbn [snd] in Hentry.
    unfold entry_readable_variant at 1, entry_files at 1; cbn [fst snd].
    destruct entry as [content|sub|].
    + cbn [filter andb]; unfold passes at 1; cbn [last].
      destruct (test item); rewrite IHrest;
        destruct (forallb entry_readable_variant rest); try reflexivity.
      rewrite <- app_assoc; reflexivity.
    + rewrite Hentry.
      destruct (readable_variant (Dir sub)); [|reflexivity].
      rewrite IHrest; cbn [andb].
      destruct (forallb entry_readable_variant rest); [|reflexivity].
      rewrite filter_passes_cons by apply files_of_nonempty.
      rewrite map_map, <- app_assoc; reflexivity.
    + reflexivity.
Qed.

Lemma path_from_top (c : jsstring) (cs : list jsstring) :
  JsString.eqb c (lit ".") = false ->
  path_from rootDir (c :: cs) = Path.join_all (c :: cs).
Proof.
  intros H; unfold path_from; cbn [fold_left].
  exact (path_from_join_all cs c H).
Qed.

(** X3.  The traversal of the variant, started in a directory none of
    whose entries is named [.], completes exactly when no entry of the tree
    is broken, hidden ones included, and then returns, in listing order,
    the path of every file whose name passes the pattern, whatever the
    names above it: the names joined with slashes, without a leading dot
    and the slash after it. *)
Theorem variant_traversal_spec (items : entries) :
  forallb (fun e => negb (JsString.eqb (fst e) (lit "."))) items = true ->
  walk_variant rootDir (Dir items)
  = if readable_variant (Dir items) then
      Some (List.map (fun cs => Path.strip_dot_slash (Path.join_all cs))
              (filter passes (files_of (Dir items))))
    else None.
Proof.
  intros Hnames; rewrite walk_variant_spec.
  destruct (readable_variant (Dir items)); [|reflexivity].
  f_equal; apply map_ext_in; intros cs Hcs.
  apply filter_In in Hcs; destruct Hcs as [Hin _].
  f_equal.
  rewrite files_of_Dir in Hin; apply in_flat_map in Hin.
  destruct Hin as ([item entry] & Hitem & Hcs).
  rewrite forallb_forall in Hnames.
  specialize (Hnames _ Hitem); cbn [fst] in Hnames.
  apply negb_true_iff in Hnames.
  unfold entry_files in Hcs; cbn [fst snd] in Hcs.
  destruct entry as [content|sub|].
  - destruct Hcs as [<-|[]]; apply path_from_top; assumption.
  - apply in_map_iff in Hcs; destruct Hcs as (cs' & <- & _).
    apply path_from_top; assumption.
  - destruct Hcs.
Qed.

Lemma variant_traversal_spec_witness :
  walk_variant rootDir scenario
  = Some (List.map lit
            ["README.md"; "data.json"; "hidden/secret.txt"; "sub/log.log"]%string).
Proof.
  etransitivity; [apply (variant_traversal_spec
                           [file "README.md"; file "data.json";
                            dir ".hidden" [file "secret.txt"];
                            dir "sub" [file "log.log"]]); reflexivity|].
  reflexivity.
Defined.

(** X4.  In the variant, a file reached through an entry of the start
    directory whose name starts with a dot is listed without that dot: the
    path in the list is the path of another name, so the link does not lead
    to the file. *)
Theorem variant_drops_leading_dot
  (root : node) (name : jsstring) (below : list jsstring)
  (collected_paths : list jsstring) :
  In ((dot :: name) :: below) (files_of root) ->
  passes ((dot :: name) :: below) = true ->
  name <> [] -> startsWith name (lit "/") = false ->
  walk_variant rootDir root = Some collected_paths ->
  In (Path.join_all (name :: below)) collected_paths.
Proof.
  intros Hin Hp Hname Hslash; rewrite walk_variant_spec.
  destruct (readable_variant root); [|discriminate].
  intros H; injection H as <-.
  apply in_map_iff; exists ((dot :: name) :: below); split;
    [|apply filter_In; split; assumption].
  rewrite path_from_top
    by (destruct name; [contradiction | reflexivity]).
  destruct name as [|c name]; [contradiction|].
  assert ((c =? slash) = false) as Hc.
  { simpl in Hslash; rewrite andb_false_iff in Hslash.
    destruct Hslash as [H|H]; [exact H|].
    destruct name; discriminate. }
  destruct below as [|b below].
  - cbn [Path.join_all Path.strip_dot_slash].
    rewrite N.eqb_refl, Hc; reflexivity.
  - change (Path.join_all ((dot :: c :: name) :: b :: below))
      with (dot :: c :: name ++ slash :: Path.join_all (b :: below)).
    cbn [Path.strip_dot_slash]; rewrite N.eqb_refl, Hc; reflexivity.
Qed.

Lemma variant_drops_leading_dot_witness :
  In (lit "hidden/secret.txt")
    (List.map lit
       ["README.md"; "data.json"; "hidden/secret.txt"; "sub/log.log"]%string).
Proof.
  apply (variant_drops_leading_dot scenario (lit "hidden") [lit "secret.txt"]);
    try reflexivity.
  - vm_compute; tauto.
  - discriminate.
Defined.

Lemma slashes_no_backslash (p : jsstring) :
  mem backslash (Path.slashes p) = false.
Proof.
  unfold mem, Path.slashes.
  induction p as [|c p IH]; [reflexivity|].
  cbn [List.map existsb]; rewrite IH, orb_false_r.
  unfold backslash, slash.
  destruct (N.eqb_spec c 92) as [->|Hc]; [reflexivity|].
  apply N.eqb_neq; congruence.
Qed.

Lemma hidden_slashes (p : jsstring) : hidden (Path.slashes p) = hidden p.
Proof.
  destruct p as [|c p]; [reflexivity|].
  change (Path.slashes (c :: p))
    with ((if c =? backslash then slash else c) :: Path.slashes p).
  rewrite !hidden_cons.
  unfold backslash, slash, dot.
  destruct (N.eqb_spec c 92) as [->|]; reflexivity.
Qed.

Lemma hidden_join_all (c : jsstring) (cs : list jsstring) :
  hidden c = false -> hidden (Path.join_all (c :: cs)) = false.
Proof.
  intros H; destruct cs as [|c2 cs]; [exact H|].
  change (Path.join_all (c :: c2 :: cs))
    with (c ++ slash :: Path.join_all (c2 :: cs)).
  destruct c as [|a c]; [reflexivity|].
  cbn [app]; rewrite hidden_cons in *; assumption.
Qed.

(** X5.  Every path that [generate_index.js] collects passes the pattern
    itself, holds no backslash, and does not start with a dot. *)
Theorem collected_paths_shape (root : node) (fileList : list jsstring) :
  collected root = Some fileList ->
  forall p,
    In p fileList ->
    test p = true /\ mem backslash p = false /\ startsWith p (lit ".") = false.
Proof.
  intros H p Hp; split; [exact (collected_test _ _ H _ Hp)|].
  rewrite collected_spec in H; destruct (readable root); [|discriminate].
  injection H as <-.
  apply in_map_iff in Hp; destruct Hp as (cs & <- & Hcs).
  apply filter_In in Hcs; destruct Hcs as [Hin Hk].
  unfold Path.relPath_of; split; [apply slashes_no_backslash|].
  change (startsWith ?x (lit ".")) with (hidden x).
  rewrite hidden_slashes.
  unfold kept in Hk; apply andb_true_iff in Hk; destruct Hk as [Hv _].
  destruct cs as [|c cs]; [exact (False_ind _ (files_of_nonempty _ _ Hin eq_refl))|].
  cbn [visible forallb] in Hv; apply andb_true_iff in Hv.
  destruct Hv as [Hc _]; apply negb_true_iff in Hc.
  apply hidden_join_all; assumption.
Qed.

Lemma collected_paths_shape_witness :
  test (lit "a/b.txt") = true
  /\ mem backslash (lit "a/b.txt") = false
  /\ startsWith (lit "a/b.txt") (lit ".") = false.
Proof.
  apply (collected_paths_shape backslash_tree
           [lit "a/b.txt"; lit "a/b.txt"]);
    [reflexivity | left; reflexivity].
Defined.

End TraversalCoverage.

(** * More on the pattern and the renderer *)

Section RendererCoverage.

(** X6.  The pattern accepts a name exactly when the name ends with a dot
    followed by one of the nine listed words, in any mix of upper and lower
    case: a name without a dot, the bare word, and a name with anything
    after the word are rejected. *)
Theorem pattern_accepts_listed_suffix (name : jsstring) :
  test name = true
  <-> exists stem ext,
      name = stem ++ dot :: ext /\ In (List.map to_lower ext) whitelist.
Proof.
  split.
  - induction name as [|c rest IH]; [discriminate|].
    change (test (c :: rest)) with (match_here (c :: rest) || test rest).
    rewrite match_here_spec, orb_true_iff, andb_true_iff, N.eqb_eq.
    intros [[-> H]|H].
    + apply existsb_exists in H; destruct H as (word & Hin & Hw).
      apply eqb_eq in Hw; subst word.
      exists [], rest; split; [reflexivity | assumption].
    + destruct (IH H) as (stem & ext & -> & Hext).
      exists (c :: stem), ext; split; [reflexivity | assumption].
  - intros (stem & ext & -> & Hext).
    apply test_app_suffix.
    change (test (dot :: ext)) with (match_here (dot :: ext) || test ext).
    rewrite match_here_spec, N.eqb_refl; cbn [andb].
    apply orb_true_iff; left.
    apply existsb_exists; exists (List.map to_lower ext); split;
      [assumption | apply eqb_refl].
Qed.

Lemma encodeURI_total (s : jsstring) :
  well_formed s = true -> exists out, encodeURI s = Some out.
Proof.
  assert (forall n s, (List.length s <= n)%nat -> well_formed s = true ->
                      exists out, encodeURI s = Some out) as K.
  { clear s; induction n as [|n IH]; intros s Hn Hs.
    - destruct s; [exists []; reflexivity | simpl in Hn; lia].
    - destruct s as [|c rest]; [exists []; reflexivity|].
      simpl in Hn; cbn [well_formed encodeURI] in *.
      destruct (unescaped c) eqn:Hu.
      + pose proof (unescaped_ascii c Hu) as Hc.
        destruct (not_surrogate_below_128 c Hc) as [Hh Hl].
        rewrite Hh, Hl in Hs; cbn [negb andb] in Hs.
        destruct (IH rest) as [out ->]; [lia | assumption|].
        eexists; reflexivity.
      + destruct (is_high_surrogate c) eqn:Hh.
        * destruct rest as [|d rest']; [discriminate|].
          apply andb_true_iff in Hs; destruct Hs as [Hd Hrest].
          assert (is_low_surrogate c = false) as ->.
          { unfold is_low_surrogate, is_high_surrogate in *.
            destruct (N.leb_spec 55296 c), (N.leb_spec c 56319),
              (N.leb_spec 56320 c), (N.leb_spec c 57343);
              simpl in *; try reflexivity; try discriminate; lia. }
          rewrite Hd; simpl in Hn.
          destruct (IH rest') as [out ->]; [lia | assumption|].
          eexists; reflexivity.
        * apply andb_true_iff in Hs; destruct Hs as [Hl Hrest].
          apply negb_true_iff in Hl; rewrite Hl.
          destruct (IH rest) as [out ->]; [lia | assumption|].
          eexists; reflexivity. }
  apply (K (List.length s)); lia.
Qed.

(** [encodeURI] throws exactly for a string that is not well formed. *)
Lemma encodeURI_throws_iff (s : jsstring) :
  encodeURI s = None <-> well_formed s = false.
Proof.
  split; intros H.
  - destruct (well_formed s) eqn:E; [|reflexivity].
    destruct (encodeURI_total s E) as [out K]; congruence.
  - destruct (encodeURI s) as [out|] eqn:E; [|reflexivity].
    apply encodeURI_well_formed in E; destruct E; congruence.
Qed.

Lemma list_items_total (files : list jsstring) :
  (exists items, list_items files = Some items)
  <-> forallb well_formed files = true.
Proof.
  induction files as [|file rest IH]; cbn [list_items forallb].
  - split; eauto.
  - rewrite andb_true_iff, <- IH; split.
    + intros [items H].
      destruct (encodeURI file) as [encoded|] eqn:E; [|discriminate].
      destruct (list_items rest) as [items'|]; [|discriminate].
      apply encodeURI_well_formed in E; destruct E; eauto.
    + intros [Hf [items' ->]].
      destruct (encodeURI_total file Hf) as [encoded ->]; eauto.
Qed.

(** X7.  The renderer returns a document exactly when every path is well
    formed, that is when no path has a surrogate that is not part of a
    pair; for any other list [encodeURI] throws and there is no
    document. *)
Theorem render_completes_iff_well_formed (files : list jsstring) :
  (exists html, render files = Some html)
  <-> forallb well_formed files = true.
Proof.
  rewrite render_spec, <- list_items_total.
  destruct (list_items files) as [items|]; cbn [option_map]; split;
    intros [x H]; try discriminate; eauto.
Qed.

Lemma hex_digit_unescaped (n : N) : n < 16 -> unescaped (hex_digit n) = true.
Proof.
  intros H; unfold unescaped, hex_digit.
  destruct (N.ltb_spec n 10).
  - assert (is_digit (48 + n) = true) as ->
      by (unfold is_digit; rewrite andb_true_iff, !N.leb_le; lia).
    rewrite orb_true_r; reflexivity.
  - assert (is_alpha (55 + n) = true) as ->
      by (unfold is_alpha; rewrite orb_true_iff, !andb_true_iff, !N.leb_le;
          lia).
    rewrite orb_true_r; reflexivity.
Qed.

Lemma percent_safe (octet : N) :
  octet < 256 -> forallb uri_safe (percent octet) = true.
Proof.
  intros H; unfold percent; cbn [forallb].
  unfold uri_safe at 2 3.
  rewrite !hex_digit_unescaped; [reflexivity| |].
  - pose proof (N.land_le_r octet 15); lia.
  - apply (shiftr_bound _ _ _ 256); [reflexivity | assumption].
Qed.

Lemma escape_safe (v : N) : forallb uri_safe (escape v) = true.
Proof.
  unfold escape.
  pose proof (utf8_octets v) as H.
  induction (utf8 v) as [|octet octets IH]; [reflexivity|].
  cbn [flat_map]; rewrite forallb_app, percent_safe, IH; auto.
  - intros; apply H; right; assumption.
  - apply H; left; reflexivity.
Qed.

(** X8.  Every character of a link target is a letter, a digit, one of
    the marks and reserved characters that [encodeURI] leaves alone, or the
    percent sign of an escape.  So a link target holds no double quote, no
    angle bracket and no space: a file name cannot end the attribute it is
    written into. *)
Theorem link_target_safe (file href : jsstring) :
  encodeURI file = Some href ->
  forall c,
    In c href ->
    uri_safe c = true /\ c <> dquote /\ c <> 60 /\ c <> 62 /\ c <> 32.
Proof.
  intros H.
  assert (forallb uri_safe href = true) as Hsafe.
  { revert file href H; apply encodeURI_ind.
    - reflexivity.
    - intros c rest out Hu _ IH; cbn [forallb]; rewrite IH.
      unfold uri_safe; rewrite Hu; reflexivity.
    - intros c d rest out _ _ _ _ _ IH.
      rewrite forallb_app, escape_safe, IH; reflexivity.
    - intros c rest out _ _ _ IH.
      rewrite forallb_app, escape_safe, IH; reflexivity. }
  rewrite forallb_forall in Hsafe.
  intros c Hc; specialize (Hsafe c Hc); split; [assumption|].
  unfold dquote; repeat split; intros ->; discriminate Hsafe.
Qed.

Lemma link_target_safe_witness :
  uri_safe 37 = true /\ 37 <> dquote /\ 37 <> 60 /\ 37 <> 62 /\ 37 <> 32.
Proof.
  apply (link_target_safe (lit "notes 1.txt") (lit "notes%201.txt"));
    [reflexivity | vm_compute; tauto].
Defined.

(** X9.  A path made of characters that [encodeURI] leaves alone is its
    own link target. *)
Theorem plain_path_linked_as_is (file : jsstring) :
  forallb unescaped file = true -> encodeURI file = Some file.
Proof.
  induction file as [|c rest IH]; [reflexivity|].
  cbn [forallb]; rewrite andb_true_iff; intros [Hc Hrest].
  cbn [encodeURI]; rewrite Hc, IH by assumption; reflexivity.
Qed.

Lemma plain_path_linked_as_is_witness :
  encodeURI (lit "sub/log.log") = Some (lit "sub/log.log").
Proof. apply plain_path_linked_as_is; reflexivity. Defined.

(** X10.  The link target of a path is made of the link targets of its
    parts: when [encodeURI] returns for two strings, its result for the two
    put together is the two results put together.  In particular the link
    target of [dir/item] is that of [dir], a slash, and that of [item]. *)
Theorem link_target_of_parts (a b ea eb : jsstring) :
  encodeURI a = Some ea -> encodeURI b = Some eb ->
  encodeURI (a ++ b) = Some (ea ++ eb)
  /\ encodeURI (a ++ slash :: b) = Some (ea ++ slash :: eb).
Proof.
  intros Ha Hb.
  assert (forall b eb, encodeURI b = Some eb ->
                       encodeURI (a ++ b) = Some (ea ++ eb)) as K.
  { clear b eb Hb; intros b eb Hb.
    revert a ea Ha; apply encodeURI_ind.
    - exact Hb.
    - intros c rest out Hu _ IH.
      cbn [app encodeURI]; rewrite Hu, IH; reflexivity.
    - intros c d rest out Hu Hl Hh Hd _ IH.
      cbn [app encodeURI]; rewrite Hu, Hl, Hh, Hd, IH.
      cbn [option_map]; rewrite <- app_assoc; reflexivity.
    - intros c rest out Hu Hs _ IH.
      change ((c :: rest) ++ b) with (c :: rest ++ b).
      rewrite encodeURI_escaped, IH by assumption.
      cbn [option_map]; rewrite <- app_assoc; reflexivity. }
  split; [exact (K b eb Hb)|].
  apply (K (slash :: b) (slash :: eb)).
  rewrite encodeURI_unescaped, Hb by reflexivity; reflexivity.
Qed.

Lemma link_target_of_parts_witness :
  encodeURI (lit "my notes" ++ lit "a b.txt")
  = Some (lit "my%20notes" ++ lit "a%20b.txt")
  /\ encodeURI (lit "my notes" ++ slash :: lit "a b.txt")
     = Some (lit "my%20notes" ++ slash :: lit "a%20b.txt").
Proof. apply link_target_of_parts; reflexivity. Defined.

(** X11.  The rendered document is well formed text: every surrogate in
    it is part of a pair, so its UTF-8 encoding is valid and reading the
    written file back gives the same string. *)
Theorem rendered_document_well_formed
  (files : list jsstring) (html : jsstring) :
  render files = Some html ->
  well_formed html = true /\ toWellFormed html = html.
Proof.
  intros H; split; [|exact (render_well_formed _ _ H)].
  rewrite render_spec in H.
  destruct (list_items files) as [items|] eqn:E; [|discriminate].
  cbn [option_map] in H.
  assert (html = header ++ List.concat items ++ footer) as -> by congruence.
  apply well_formed_app; [reflexivity|].
  apply well_formed_app; [|reflexivity].
  apply well_formed_concat; exact (list_items_well_formed _ _ E).
Qed.

Lemma rendered_document_well_formed_witness :
  well_formed scenario_document = true
  /\ toWellFormed scenario_document = scenario_document.
Proof.
  apply (rendered_document_well_formed
           (List.map lit ["README.md"; "data.json"; "sub/log.log"]%string)).
  reflexivity.
Defined.

End RendererCoverage.

(** * More on the sort and the writer *)

Section WriterCoverage.

(** X12.  The sorted list does not depend on how the engine sorts or on
    the order of the traversal: any ascending arrangement of the collected
    paths is the list the script renders. *)
Theorem sort_is_the_ascending_arrangement (l l' : list jsstring) :
  Permutation l l' -> Sorted unit_le l' -> sort l = l'.
Proof.
  intros Hp Hs; apply ascending_unique.
  - rewrite <- (sort_perm l); assumption.
  - apply sort_strongly_sorted.
  - apply Sorted_StronglySorted; [exact unit_le_trans | assumption].
Qed.

Lemma sort_is_the_ascending_arrangement_witness :
  sort [lit "b.txt"; lit "a/a.txt"; lit "a.md"]
  = [lit "a.md"; lit "a/a.txt"; lit "b.txt"].
Proof.
  apply sort_is_the_ascending_arrangement.
  - apply (Permutation_cons_app [lit "a.md"; lit "a/a.txt"] []); simpl.
    apply perm_swap.
  - repeat constructor.
Defined.

Lemma write_entry_not_dir (name data : jsstring) (items : entries) :
  forall items',
    write_entry name data items = Some items' ->
    forall sub, lookup name items <> Some (Dir sub).
Proof.
  induction items as [|[n d] rest IH]; cbn [write_entry lookup];
    intros items' H sub; [discriminate|].
  destruct (JsString.eqb n name).
  - destruct d; try discriminate.
  - destruct (write_entry name data rest) as [r|]; [|discriminate].
    exact (IH _ eq_refl sub).
Qed.

(** X13.  A run of [generate_index.js] completes only if the traversal
    completes, every collected path is well formed, and [index.html] is not
    a directory: when the traversal aborts, when a path has a surrogate
    without its pair, or when [index.html] is a directory, the run aborts,
    and it does so before it has written or logged anything. *)
Theorem run_completes_only_if
  (w : world) (root' : node) (effects : list effect) :
  main w = Some (root', effects) ->
  exists fileList,
    collected (cwd w) = Some fileList
    /\ forallb well_formed fileList = true
    /\ output_is_directory (cwd w) = false.
Proof.
  intros Hm.
  destruct (main_cases _ _ _ Hm) as (files & html & Hf & Hr & Hcase).
  unfold files_of_run in Hf.
  destruct (collected (cwd w)) as [fileList|] eqn:Hc; [|discriminate].
  injection Hf as <-.
  exists fileList; split; [reflexivity|]; split.
  - rewrite (forallb_perm _ _ _ (sort_perm fileList)).
    apply list_items_total.
    rewrite render_spec in Hr.
    destruct (list_items (sort fileList)); [eauto | discriminate].
  - unfold output_is_directory, readFileSync, writeFileSync in *.
    destruct (cwd w) as [|items|]; try reflexivity.
    destruct (lookup outputPath items) as [[| |]|] eqn:Hl; try reflexivity.
    exfalso; destruct Hcase as [(_ & Hread & _)|(Hw & _ & _)];
      [discriminate|].
    destruct (write_entry outputPath html items) as [items'|] eqn:E;
      [|discriminate].
    exact (write_entry_not_dir _ _ _ _ E _ Hl).
Qed.

Lemma run_completes_only_if_witness :
  (exists fileList,
      collected scenario = Some fileList
      /\ forallb well_formed fileList = true
      /\ output_is_directory scenario = false)
  /\ main (World scenario_output_dir []) = None
  /\ main (World lone_surrogate_tree []) = None
  /\ main (World scenario_broken []) = None.
Proof.
  split; [|split; [|split]].
  - apply (run_completes_only_if (World scenario [])
             scenario_stale_written
             [Write outputPath scenario_document; Log (Updated 3)]).
    reflexivity.
  - destruct (main (World scenario_output_dir [])) as [[root' effects]|] eqn:E;
      [|reflexivity].
    destruct (run_completes_only_if _ _ _ E) as (fileList & _ & _ & H).
    discriminate H.
  - destruct (main (World lone_surrogate_tree [])) as [[root' effects]|] eqn:E;
      [|reflexivity].
    destruct (run_completes_only_if _ _ _ E) as (fileList & Hc & H & _).
    assert (collected lone_surrogate_tree
            = Some [lit "a.txt"; 55357 :: lit ".txt"]) as K by reflexivity.
    cbn [cwd] in Hc; rewrite K in Hc; injection Hc as <-.
    discriminate H.
  - destruct (main (World scenario_broken [])) as [[root' effects]|] eqn:E;
      [|reflexivity].
    destruct (run_completes_only_if _ _ _ E) as (fileList & Hc & _).
    discriminate Hc.
Defined.

(** X15.  The document of the variant follows the clock: over one tree,
    two runs whose time texts differ render different documents, so a file
    written by one run never equals the document of the other. *)
Theorem variant_document_follows_clock
  (w1 w2 : world) (html1 html2 : jsstring) :
  cwd w1 = cwd w2 -> now w1 <> now w2 ->
  rendered_variant w1 = Some html1 -> rendered_variant w2 = Some html2 ->
  html1 <> html2.
Proof.
  unfold rendered_variant; intros Hcwd Hnow H1 H2 Heq; apply Hnow.
  rewrite Hcwd in H1.
  destruct (option_map sort (walk_variant rootDir (cwd w2))) as [files|];
    [|discriminate].
  rewrite render_variant_spec in H1, H2.
  destruct (list_items files) as [items|]; [|discriminate].
  cbn [option_map] in H1, H2.
  assert (header ++ List.concat items ++ footer_variant (now w1)
          = header ++ List.concat items ++ footer_variant (now w2)) as E
    by congruence.
  apply app_inv_head, app_inv_head in E.
  unfold footer_variant, paragraph in E.
  apply app_inv_head, app_inv_tail, app_inv_head, app_inv_tail in E.
  apply app_inv_head, app_inv_head in E.
  exact E.
Qed.

Lemma variant_document_follows_clock_witness :
  header ++ footer_variant (lit "08:00:00")
  <> header ++ footer_variant (lit "08:00:01").
Proof.
  apply (variant_document_follows_clock
           (World (Dir []) (lit "08:00:00")) (World (Dir []) (lit "08:00:01")));
    try reflexivity.
  vm_compute; discriminate.
Defined.

End WriterCoverage.

(** * Paths that are pairwise different *)

Section DistinctPaths.

Lemma mem_In (c : N) (s : jsstring) : mem c s = false -> ~ In c s.
Proof.
  unfold mem; intros H Hin.
  assert (existsb (N.eqb c) s = true) as K
    by (apply existsb_exists; exists c; split; [assumption | apply N.eqb_refl]).
  congruence.
Qed.

Lemma split_at_unit (u : N) (a b x y : jsstring) :
  ~ In u a -> ~ In u b -> a ++ u :: x = b ++ u :: y -> a = b /\ x = y.
Proof.
  revert b; induction a as [|c a IH]; intros [|d b] Ha Hb E; simpl in *.
  - injection E as ->; auto.
  - injection E as E _; subst d; exfalso; apply Hb; left; reflexivity.
  - injection E as E _; subst c; exfalso; apply Ha; left; reflexivity.
  - injection E as -> E.
    destruct (IH b) as [-> ->]; auto.
Qed.

(** Lists of names without a slash that give the same joined path are the
    same list. *)
Lemma join_all_inj (cs1 : list jsstring) :
  forall cs2,
    cs1 <> [] -> cs2 <> [] ->
    (forall c, In c cs1 -> mem slash c = false) ->
    (forall c, In c cs2 -> mem slash c = false) ->
    Path.join_all cs1 = Path.join_all cs2 -> cs1 = cs2.
Proof.
  induction cs1 as [|c1 r1 IH]; intros cs2 Hn1 Hn2 H1 H2 E; [congruence|].
  destruct cs2 as [|c2 r2]; [congruence|].
  assert (~ In slash c1) as Hc1 by (apply mem_In, H1; left; reflexivity).
  assert (~ In slash c2) as Hc2 by (apply mem_In, H2; left; reflexivity).
  destruct r1 as [|d1 r1], r2 as [|d2 r2].
  - cbn [Path.join_all] in E; congruence.
  - change (Path.join_all (c2 :: d2 :: r2))
      with (c2 ++ slash :: Path.join_all (d2 :: r2)) in E.
    cbn [Path.join_all] in E; subst c1.
    exfalso; apply Hc1, in_or_app; right; left; reflexivity.
  - change (Path.join_all (c1 :: d1 :: r1))
      with (c1 ++ slash :: Path.join_all (d1 :: r1)) in E.
    cbn [Path.join_all] in E; subst c2.
    exfalso; apply Hc2, in_or_app; right; left; reflexivity.
  - change (Path.join_all (c1 :: d1 :: r1))
      with (c1 ++ slash :: Path.join_all (d1 :: r1)) in E.
    change (Path.join_all (c2 :: d2 :: r2))
      with (c2 ++ slash :: Path.join_all (d2 :: r2)) in E.
    apply split_at_unit in E; [|assumption|assumption].
    destruct E as [-> E]; f_equal.
    apply IH; try discriminate; try assumption.
    + intros c Hc; apply H1; right; assumption.
    + intros c Hc; apply H2; right; assumption.
Qed.

Lemma join_all_no_backslash (cs : list jsstring) :
  (forall c, In c cs -> mem backslash c = false) ->
  mem backslash (Path.join_all cs) = false.
Proof.
  induction cs as [|c cs IH]; intros H; [reflexivity|].
  destruct cs as [|c2 cs]; [apply H; left; reflexivity|].
  change (Path.join_all (c :: c2 :: cs))
    with (c ++ slash :: Path.join_all (c2 :: cs)).
  rewrite mem_app, (H c) by (left; reflexivity).
  change (mem backslash (slash :: Path.join_all (c2 :: cs)))
    with ((backslash =? slash) || mem backslash (Path.join_all (c2 :: cs))).
  rewrite IH by (intros; apply H; right; assumption); reflexivity.
Qed.

Lemma distinct_NoDup (names : list jsstring) :
  distinct names = true -> NoDup names.
Proof.
  induction names as [|n rest IH]; [constructor|].
  cbn [distinct]; rewrite andb_true_iff, negb_true_iff; intros [Hn Hrest].
  constructor; [|auto].
  intros Hin.
  assert (existsb (JsString.eqb n) rest = true) as K
    by (apply existsb_exists; exists n; split; [assumption | apply eqb_refl]).
  congruence.
Qed.

Lemma entry_files_head (e : jsstring * node) (cs : list jsstring) :
  In cs (entry_files e) -> exists rest, cs = fst e :: rest.
Proof.
  destruct e as [item entry]; unfold entry_files; cbn [fst snd].
  destruct entry as [content|sub|]; intros H.
  - destruct H as [<-|[]]; eauto.
  - apply in_map_iff in H; destruct H as (rest & <- & _); eauto.
  - destruct H.
Qed.

Lemma proper_Dir (items : entries) :
  proper (Dir items)
  = distinct (List.map fst items)
    && forallb (fun e => single_component (fst e) && proper (snd e)) items.
Proof. reflexivity. Qed.

(** In a proper tree no file is listed twice, and no name on the way to a
    file holds a separator. *)
Lemma proper_files (d : node) :
  proper d = true ->
  NoDup (files_of d)
  /\ forall cs c, In cs (files_of d) -> In c cs -> single_component c = true.
Proof.
  induction d as [content| |items IH] using node_ind';
    try (intros _; split; [constructor | intros ? ? []]).
  rewrite proper_Dir, files_of_Dir, andb_true_iff; intros [Hd Hall].
  induction IH as [|[item entry] rest Hentry _ IHrest];
    [split; [constructor | intros ? ? []]|].
  cbn [List.map fst distinct forallb snd] in Hd, Hall, Hentry.
  apply andb_true_iff in Hd; destruct Hd as [Hitem Hd].
  apply andb_true_iff in Hall; destruct Hall as [Hhead Hall].
  apply andb_true_iff in Hhead; destruct Hhead as [Hname Hsub].
  destruct (IHrest Hd Hall) as [IH1 IH2]; clear IHrest.
  assert (NoDup (entry_files (item, entry))
          /\ forall cs c, In cs (entry_files (item, entry)) -> In c cs ->
                          single_component c = true) as [He1 He2].
  { unfold entry_files; cbn [fst snd].
    destruct entry as [content|sub|].
    - split; [repeat constructor; intros []|].
      intros cs c [<-|[]] [<-|[]]; assumption.
    - destruct (Hentry Hsub) as [Hs1 Hs2]; split.
      + apply NoDup_map_NoDup_ForallPairs; [|assumption].
        intros x y _ _ E; injection E; auto.
      + intros cs c Hcs Hc.
        apply in_map_iff in Hcs; destruct Hcs as (cs' & <- & Hcs').
        destruct Hc as [<-|Hc]; [assumption | eauto].
    - split; [constructor | intros ? ? []]. }
  cbn [flat_map]; split.
  - apply NoDup_app; try assumption.
    intros cs Hcs Hrest.
    apply entry_files_head in Hcs; destruct Hcs as [tl ->]; cbn [fst] in Hrest.
    apply in_flat_map in Hrest; destruct Hrest as (e' & He' & Hcs').
    apply entry_files_head in Hcs'; destruct Hcs' as [tl' E].
    injection E as E _.
    apply negb_true_iff in Hitem.
    assert (existsb (JsString.eqb item) (List.map fst rest) = true) as K.
    { apply existsb_exists; exists (fst e'); split;
        [apply in_map; assumption | apply eqb_eq; assumption]. }
    congruence.
  - intros cs c Hcs Hc; apply in_app_or in Hcs.
    destruct Hcs as [Hcs|Hcs]; eauto.
Qed.

(** X16.  In a tree where the names of each directory are pairwise
    different and no name holds a slash or a backslash, the collected paths
    are pairwise different, and so are the sorted ones: no file is linked
    twice.  A backslash in a name is what it takes to list a path twice. *)
Theorem collected_paths_distinct (root : node) (fileList : list jsstring) :
  proper root = true ->
  collected root = Some fileList ->
  NoDup fileList /\ NoDup (sort fileList).
Proof.
  intros Hp Hc.
  assert (NoDup fileList) as Hnd.
  { rewrite collected_spec in Hc; destruct (readable root); [|discriminate].
    injection Hc as <-.
    destruct (proper_files root Hp) as [Hf Hs].
    apply NoDup_map_NoDup_ForallPairs; [|apply NoDup_filter; assumption].
    intros cs1 cs2 H1 H2 E.
    apply filter_In in H1, H2; destruct H1 as [H1 _], H2 as [H2 _].
    assert (forall cs c, In cs (files_of root) -> In c cs ->
                         mem slash c = false /\ mem backslash c = false) as K.
    { intros cs c Hcs Hin; specialize (Hs cs c Hcs Hin).
      unfold single_component in Hs.
      rewrite andb_true_iff, !negb_true_iff in Hs; exact Hs. }
    unfold Path.relPath_of in E.
    rewrite (slashes_tame (Path.join_all cs1)) in E
      by (apply join_all_no_backslash; intros c Hin;
          exact (proj2 (K cs1 c H1 Hin))).
    rewrite (slashes_tame (Path.join_all cs2)) in E
      by (apply join_all_no_backslash; intros c Hin;
          exact (proj2 (K cs2 c H2 Hin))).
    apply join_all_inj in E; try assumption.
    - exact (files_of_nonempty _ _ H1).
    - exact (files_of_nonempty _ _ H2).
    - intros c Hin; exact (proj1 (K cs1 c H1 Hin)).
    - intros c Hin; exact (proj1 (K cs2 c H2 Hin)). }
  split; [assumption|].
  exact (Permutation_NoDup (sort_perm fileList) Hnd).
Qed.

Lemma collected_paths_distinct_witness :
  NoDup (List.map lit ["README.md"; "data.json"; "sub/log.log"]%string)
  /\ NoDup (sort (List.map lit ["README.md"; "data.json"; "sub/log.log"]%string)).
Proof. apply (collected_paths_distinct scenario); reflexivity. Defined.

End DistinctPaths.

(** * Hidden files, reserved characters and the anchors of the text *)

Section RevisedClaims.








(** C4.  The script leaves reserved characters in the link target: for the
    files [a?b.txt], [a#b.txt] and [a:b.txt] the link target is the name as
    it is, so the link leads to the file [a] with a query, to the file [a]
    with a fragment, and to a scheme [a], and not to the file. *)
Lemma reserved_characters_left_in_href :
  encodeURI (lit "a?b.txt") = Some (lit "a?b.txt")
  /\ encodeURI (lit "a#b.txt") = Some (lit "a#b.txt")
  /\ encodeURI (lit "a:b.txt") = Some (lit "a:b.txt")
  /\ collected (Dir [file "a?b.txt"]) = Some [lit "a?b.txt"]
  /\ render (sort [lit "a?b.txt"])
     = Some (header
             ++ (lit "    <li><a href=" ++ dquote :: lit "a?b.txt"
                 ++ dquote :: lit ">a?b.txt</a></li>" ++ [newline])
             ++ footer).
Proof. repeat split; vm_compute; reflexivity. Qed.

End RevisedClaims.

(** * The anchors of the text *)

Section AnchorsOfTheText.

(** A closed text has no [<]. *)
Ltac clear_tail :=
  let K := fresh "K" in
  intros K; vm_compute in K;
  repeat (destruct K as [K|K]; [discriminate K|]); exact K.

Lemma startsWith_app (pat s rest : jsstring) :
  (List.length pat <= List.length s)%nat ->
  startsWith (s ++ rest) pat = startsWith s pat.
Proof.
  revert s; induction pat as [|c pat IH]; intros s H.
  - destruct s, rest; reflexivity.
  - destruct s as [|d s]; [simpl in H; lia|].
    cbn [app startsWith]; rewrite IH by (simpl in H; lia); reflexivity.
Qed.

(** A pattern that starts with [<] starts nowhere in a text without
    [<]. *)
Lemma occurrences_skip (pat a rest : jsstring) :
  ~ In less_than a ->
  occurrences (less_than :: pat) (a ++ rest)
  = occurrences (less_than :: pat) rest.
Proof.
  induction a as [|c a IH]; intros H; [reflexivity|].
  cbn [app occurrences startsWith].
  assert ((c =? less_than) = false) as ->
    by (apply N.eqb_neq; intros ->; apply H; left; reflexivity).
  cbn [andb]; apply IH; intros Hin; apply H; right; assumption.
Qed.

(** A text that ends with enough characters other than [<] can be counted
    apart from what follows it. *)
Lemma occurrences_cut (pat a tail rest : jsstring) :
  ~ In less_than tail ->
  (List.length pat <= List.length tail)%nat ->
  occurrences (less_than :: pat) (a ++ tail ++ rest)
  = (occurrences (less_than :: pat) (a ++ tail)
     + occurrences (less_than :: pat) rest)%nat.
Proof.
  intros Ht Hlen; induction a as [|c a IH].
  - cbn [app]; rewrite occurrences_skip by assumption.
    assert (occurrences (less_than :: pat) tail = 0%nat) as ->
      by (rewrite <- (app_nil_r tail);
          rewrite occurrences_skip by assumption; reflexivity).
    reflexivity.
  - change ((c :: a) ++ tail ++ rest) with (c :: a ++ tail ++ rest).
    change ((c :: a) ++ tail) with (c :: a ++ tail).
    cbn [occurrences]; rewrite IH.
    replace (startsWith (c :: a ++ tail ++ rest) (less_than :: pat))
      with (startsWith (c :: a ++ tail) (less_than :: pat)); [lia|].
    change (c :: a ++ tail ++ rest) with ((c :: a) ++ tail ++ rest).
    rewrite app_assoc; symmetry; apply startsWith_app.
    cbn [List.length app]; rewrite length_app; lia.
Qed.

Definition item_head : jsstring := lit "    <li><a href=".
Definition item_foot : jsstring := lit "</a></li>" ++ [newline].

Lemma list_item_parts (encoded file rest : jsstring) :
  list_item encoded file ++ rest
  = lit "    <li><a h" ++ lit "ref="
    ++ (dquote :: encoded ++ dquote :: lit ">" ++ file)
    ++ lit "</a></" ++ (lit "li>" ++ [newline]) ++ rest.
Proof.
  unfold list_item.
  change (lit "    <li><a href=" ++ ?x)
    with (lit "    <li><a h" ++ lit "ref=" ++ x).
  rewrite <- !app_assoc; cbn [app].
  do 2 f_equal.
  rewrite <- !app_assoc; cbn [app].
  do 2 f_equal.
  rewrite <- !app_assoc; reflexivity.
Qed.

(** One list item, counted apart from what follows it. *)
Lemma occurrences_item (pat encoded file rest : jsstring) :
  (List.length pat <= 3)%nat ->
  ~ In less_than encoded -> ~ In less_than file ->
  occurrences (less_than :: pat) (list_item encoded file ++ rest)
  = (occurrences (less_than :: pat) item_head
     + occurrences (less_than :: pat) item_foot
     + occurrences (less_than :: pat) rest)%nat.
Proof.
  intros Hlen He Hf.
  rewrite list_item_parts.
  rewrite (occurrences_cut pat (lit "    <li><a h") (lit "ref="));
    [|clear_tail | simpl; lia].
  rewrite (occurrences_skip pat
             (dquote :: encoded ++ dquote :: lit ">" ++ file)).
  - rewrite (occurrences_cut pat (lit "</a></") (lit "li>" ++ [newline]));
      [|clear_tail | simpl; lia].
    change (lit "    <li><a h" ++ lit "ref=") with item_head.
    change (lit "</a></" ++ lit "li>" ++ [newline]) with item_foot.
    lia.
  - intros [H|H]; [discriminate H|].
    apply in_app_or in H; destruct H as [H|[H|[H|H]]];
      [exact (He H) | discriminate H | discriminate H | exact (Hf H)].
Qed.

(** Every character [encodeURI] writes is one it leaves alone or a percent
    sign. *)
Lemma encodeURI_safe (file href : jsstring) :
  encodeURI file = Some href -> forallb uri_safe href = true.
Proof.
  revert file href; apply encodeURI_ind.
  - reflexivity.
  - intros c rest out Hu _ IH; cbn [forallb]; rewrite IH.
    unfold uri_safe; rewrite Hu; reflexivity.
  - intros c d rest out _ _ _ _ _ IH.
    rewrite forallb_app, escape_safe, IH; reflexivity.
  - intros c rest out _ _ _ IH.
    rewrite forallb_app, escape_safe, IH; reflexivity.
Qed.

Lemma encodeURI_no_less_than (file href : jsstring) :
  encodeURI file = Some href -> ~ In less_than href.
Proof.
  intros H Hin; apply encodeURI_safe in H.
  rewrite forallb_forall in H; specialize (H _ Hin); discriminate H.
Qed.

(** The items of a list of paths without [<], counted apart from what
    follows them. *)
Lemma occurrences_items (pat : jsstring) (files : list jsstring) :
  (List.length pat <= 3)%nat ->
  forall items rest,
    list_items files = Some items ->
    (forall file, In file files -> ~ In less_than file) ->
    occurrences (less_than :: pat) (List.concat items ++ rest)
    = (List.length files
       * (occurrences (less_than :: pat) item_head
          + occurrences (less_than :: pat) item_foot)
       + occurrences (less_than :: pat) rest)%nat.
Proof.
  intros Hlen; induction files as [|file files IH]; intros items rest H Hf.
  - injection H as <-; reflexivity.
  - cbn [list_items] in H.
    destruct (encodeURI file) as [encoded|] eqn:E; [|discriminate].
    destruct (list_items files) as [items'|]; [|discriminate].
    injection H as <-.
    cbn [List.concat]; rewrite <- app_assoc.
    rewrite occurrences_item;
      [|assumption | exact (encodeURI_no_less_than _ _ E)
       |apply Hf; left; reflexivity].
    rewrite (IH items' rest eq_refl)
      by (intros f Hin; apply Hf; right; assumption).
    cbn [List.length]; lia.
Qed.

Lemma header_cut :
  header = firstn 552 header ++ lit "ul>" ++ [newline].
Proof. reflexivity. Qed.

(** The document of a list of paths without [<], counted. *)
Lemma occurrences_document
  (pat : jsstring) (files items : list jsstring) :
  (List.length pat <= 3)%nat ->
  list_items files = Some items ->
  (forall file, In file files -> ~ In less_than file) ->
  occurrences (less_than :: pat) (header ++ List.concat items ++ footer)
  = (occurrences (less_than :: pat) header
     + List.length files
       * (occurrences (less_than :: pat) item_head
          + occurrences (less_than :: pat) item_foot)
     + occurrences (less_than :: pat) footer)%nat.
Proof.
  intros Hlen H Hf.
  rewrite header_cut at 1; rewrite <- app_assoc.
  rewrite (occurrences_cut pat (firstn 552 header) (lit "ul>" ++ [newline]));
    [|clear_tail | simpl; lia].
  rewrite <- header_cut.
  rewrite (occurrences_items pat files Hlen items footer H Hf); lia.
Qed.

(** C9, as amended.  The document has exactly one list item for each
    element of the collected list: as many items as collected paths, in
    the order of the sorted list, each with the text the script writes for
    its path; and a path that occurs n times in the collected list has n
    items.  When no collected path holds the character [<], the text of
    the document has as many starts of an anchor, and as many starts of a
    list item, as there are collected paths. *)
Theorem one_item_per_path (fileList : list jsstring) (html : jsstring) :
  render (sort fileList) = Some html ->
  (exists items,
      html = header ++ List.concat items ++ footer
      /\ List.length items = List.length fileList
      /\ Forall2
           (fun file item =>
              exists encoded,
                encodeURI file = Some encoded
                /\ item
                   = lit "    <li><a href=" ++ dquote :: encoded
                     ++ dquote :: lit ">" ++ file ++ lit "</a></li>"
                     ++ [newline])
           (sort fileList) items
      /\ forall file encoded,
          encodeURI file = Some encoded ->
          count_occ jsstring_eq_dec items
            (lit "    <li><a href=" ++ dquote :: encoded
             ++ dquote :: lit ">" ++ file ++ lit "</a></li>" ++ [newline])
          = count_occ jsstring_eq_dec fileList file)
  /\ ((forall file, In file fileList -> ~ In less_than file) ->
      occurrences (lit "<a ") html = List.length fileList
      /\ occurrences (lit "<li>") html = List.length fileList).
Proof.
  rewrite render_spec.
  destruct (list_items (sort fileList)) as [items|] eqn:E; [|discriminate].
  cbn [option_map]; intros H.
  assert (html = header ++ List.concat items ++ footer) as -> by congruence.
  clear H; split.
  - exists items; split; [reflexivity|]; split; [|split].
    + etransitivity; [exact (list_items_length _ _ E) | apply sort_length].
    + exact (list_items_Forall2 _ _ E).
    + intros file encoded Henc.
      change (lit "    <li><a href=" ++ dquote :: encoded
              ++ dquote :: lit ">" ++ file ++ lit "</a></li>" ++ [newline])
        with (list_item encoded file).
      rewrite (count_items _ _ _ _ (list_items_Forall2 _ _ E) Henc).
      symmetry; apply Permutation_count_occ, sort_perm.
  - intros Hf.
    assert (forall file, In file (sort fileList) -> ~ In less_than file) as Hs.
    { intros file Hin; apply Hf.
      exact (Permutation_in _ (Permutation_sym (sort_perm fileList)) Hin). }
    split.
    + change (lit "<a ") with (less_than :: lit "a ").
      rewrite (occurrences_document (lit "a ") _ _ (le_S _ _ (le_n 2)) E Hs).
      rewrite sort_length.
      change (occurrences (less_than :: lit "a ") header) with 0%nat.
      change (occurrences (less_than :: lit "a ") item_head) with 1%nat.
      change (occurrences (less_than :: lit "a ") item_foot) with 0%nat.
      change (occurrences (less_than :: lit "a ") footer) with 0%nat.
      lia.
    + change (lit "<li>") with (less_than :: lit "li>").
      rewrite (occurrences_document (lit "li>") _ _ (le_n 3) E Hs).
      rewrite sort_length.
      change (occurrences (less_than :: lit "li>") header) with 0%nat.
      change (occurrences (less_than :: lit "li>") item_head) with 1%nat.
      change (occurrences (less_than :: lit "li>") item_foot) with 0%nat.
      change (occurrences (less_than :: lit "li>") footer) with 0%nat.
      lia.
Qed.

(** On the tree with [a/b.txt] and the file named [a\b.txt] the collected
    list has the path [a/b.txt] twice, and the text of the document has two
    anchors and two list items. *)
Lemma one_item_per_path_witness :
  collected backslash_tree = Some [lit "a/b.txt"; lit "a/b.txt"]
  /\ occurrences (lit "<a ")
       (header
        ++ (list_item (lit "a/b.txt") (lit "a/b.txt")
            ++ list_item (lit "a/b.txt") (lit "a/b.txt"))
        ++ footer) = 2%nat
  /\ occurrences (lit "<li>")
       (header
        ++ (list_item (lit "a/b.txt") (lit "a/b.txt")
            ++ list_item (lit "a/b.txt") (lit "a/b.txt"))
        ++ footer) = 2%nat.
Proof.
  split; [reflexivity|].
  apply (proj2 (one_item_per_path [lit "a/b.txt"; lit "a/b.txt"] _
                  ltac:(vm_compute; reflexivity))).
  intros file [<-|[<-|[]]] Hin; vm_compute in Hin;
    repeat (destruct Hin as [Hin|Hin]; [discriminate Hin|]); exact Hin.
Defined.

(** C9, as stated, fails: the visible text of an item is the path as it
    is, so for the one file named [a<a href="x">b.txt] the text of the
    document has two starts of an anchor. *)
Lemma anchors_outnumber_paths :
  collected injected_tree = Some [injected_name]
  /\ ~ (forall html,
           render (sort [injected_name]) = Some html ->
           occurrences (lit "<a ") html = List.length [injected_name]).
Proof.
  split; [reflexivity|].
  intros H; specialize (H _ eq_refl).
  vm_compute in H; discriminate H.
Qed.

End AnchorsOfTheText.
